(** * inputIntoSelect.js: replacing a form input with a select element

    A shallow embedding of [replaceInputWithSelect] (src/inputIntoSelect.js)
    and of the part of the browser's document object model it calls:
    [document.querySelector], [document.createElement], [Element.attributes],
    [Element.setAttribute], the [value] and [textContent] setters,
    [Node.appendChild], [Node.replaceChild] and [console.warn]; of the
    message listener of lines 38 to 51; and of [generateYearOptions] from
    the usage notes that come with the file.

    The page is an HTML document.  Strings are byte strings (text outside
    ASCII is its UTF-8 encoding).  An element reference is the element's
    position in the document tree; an element that is not yet in the tree
    (the select and its options while they are built) is a local value.

    Of the selector language the model reads what line 8 builds while the
    field name stays inside the quoted value, and it recognises the texts
    that a stray quote or line break turns into no selector at all.  A
    text that goes on after the first attribute selector, or that uses
    backslash escapes, is left unread: a call with such a text ends
    [Undetermined], and no statement below speaks about it. *)

From Stdlib Require Import Ascii String.
From stdpp Require Import base option list strings pretty.
From Equations Require Import Equations.


(** ** Characters the host APIs single out *)

Definition NUL : ascii := "000".
Definition TAB : ascii := "009".
Definition LF : ascii := "010".
Definition FF : ascii := "012".
Definition CR : ascii := "013".
Definition SPACE : ascii := " ".
Definition DQUOTE : ascii := "034".
Definition BACKSLASH : ascii := "092".

(** Infra's ASCII whitespace: TAB, LF, FF, CR and SPACE. *)
Definition is_ascii_whitespace (c : ascii) : bool :=
  Ascii.eqb c TAB || Ascii.eqb c LF || Ascii.eqb c FF || Ascii.eqb c CR
  || Ascii.eqb c SPACE.

(** CSS Syntax: a newline is LF, and the tokenizer's preprocessing turns CR
    and FF into LF. *)
Definition is_css_newline (c : ascii) : bool :=
  Ascii.eqb c LF || Ascii.eqb c CR || Ascii.eqb c FF.

(** Infra's ASCII lowercase of one byte: A-Z become a-z, the rest stays. *)
Definition ascii_lower (c : ascii) : ascii :=
  let n := nat_of_ascii c in
  if (65 <=? n)%nat && (n <=? 90)%nat then ascii_of_nat (n + 32) else c.

Fixpoint ascii_lowercase (s : string) : string :=
  match s with
  | EmptyString => EmptyString
  | String c s' => String (ascii_lower c) (ascii_lowercase s')
  end.

Fixpoint string_forallb (p : ascii -> bool) (s : string) : bool :=
  match s with
  | EmptyString => true
  | String c s' => p c && string_forallb p s'
  end.

(** ** The document tree *)

(** An attribute as [Attr.name] and [Attr.value] show it. *)
Record attr := Attr { attr_name : string; attr_value : string }.

(** A node of the tree: an element with its local name, its attribute list
    in enumeration order and its children, or character data. *)
#[local] Unset Elimination Schemes.
Inductive node :=
| Elem (tag : string) (attrs : list attr) (kids : list node)
| Text (data : string)
| Comment (data : string).
#[local] Set Elimination Schemes.

Definition attributes (n : node) : list attr :=
  match n with Elem _ a _ => a | _ => [] end.

Definition childNodes (n : node) : list node :=
  match n with Elem _ _ k => k | _ => [] end.

Definition localName (n : node) : option string :=
  match n with Elem t _ _ => Some t | _ => None end.

(** [Element.getAttribute]: the value of the first attribute of that name. *)
Fixpoint attr_lookup (name : string) (l : list attr) : option string :=
  match l with
  | [] => None
  | a :: l' =>
      if bool_decide (attr_name a = name) then Some (attr_value a)
      else attr_lookup name l'
  end.

Definition getAttribute (n : node) (name : string) : option string :=
  attr_lookup name (attributes n).

(** [Node.textContent] read: the data of the text descendants, in tree
    order; of character data, the data itself. *)
Fixpoint textContent (n : node) : string :=
  match n with
  | Elem _ _ kids =>
      (fix cat (l : list node) : string :=
         match l with
         | [] => EmptyString
         | Comment _ :: l' => cat l'
         | k :: l' => textContent k +:+ cat l'
         end) kids
  | Text d => d
  | Comment d => d
  end.

(** A position in a tree: the child indices on the way down.  Under the
    document the first index picks one of the document's children. *)
Definition path := list nat.

(** The node at a position below a list of siblings. *)
Fixpoint node_at (ns : list node) (p : path) : option node :=
  match p with
  | [] => None
  | i :: p' =>
      match ns !! i with
      | None => None
      | Some n => match p' with [] => Some n | _ => node_at (childNodes n) p' end
      end
  end.

(** The siblings with the node at a position exchanged for another; the
    elements on the way down keep their name and attributes. *)
Fixpoint replace_at (ns : list node) (p : path) (new : node) : list node :=
  match p with
  | [] => ns
  | i :: p' =>
      match p' with
      | [] => <[i := new]> ns
      | _ =>
          match ns !! i with
          | Some (Elem t a ks) => <[i := Elem t a (replace_at ks p' new)]> ns
          | _ => ns
          end
      end
  end.

(** Tree order (preorder, depth first) on positions: an ancestor comes
    before its descendants, an earlier sibling's subtree before a later
    one's. *)
Fixpoint precedes (p q : path) : bool :=
  match p, q with
  | [], [] => false
  | [], _ :: _ => true
  | _ :: _, [] => false
  | i :: p', j :: q' =>
      if bool_decide (i < j)%nat then true
      else if bool_decide (i = j) then precedes p' q' else false
  end.

Section first_in_tree_order.
Context (m : node -> bool).

Section children.
Context (below : node -> option path).

(** The first hit among siblings, the leftmost sibling being number [i]. *)
Fixpoint scan_children (l : list node) (i : nat) : option path :=
  match l with
  | [] => None
  | k :: l' =>
      match below k with
      | Some p => Some (i :: p)
      | None => scan_children l' (S i)
      end
  end.

End children.

(** The first node of a subtree, in tree order, that [m] accepts, as a
    position below the subtree's root ([[]] is the root itself). *)
Fixpoint first_below (n : node) : option path :=
  if m n then Some []
  else match n with
       | Elem _ _ kids => scan_children first_below kids 0
       | _ => None
       end.

(** The same over the children of the document. *)
Definition first_in_document (doc : list node) : option path :=
  scan_children first_below doc 0.

End first_in_tree_order.

(** ** Selectors *)

(** U+FFFD REPLACEMENT CHARACTER, which the CSS tokenizer's preprocessing
    puts in the place of U+0000. *)
Definition REPLACEMENT : string :=
  String "239" (String "191" (String "189" EmptyString)).

(** What the CSS tokenizer makes of the text after an opening double quote
    (CSS Syntax, consume a string token): the string up to the closing
    quote and the text after it; a string that runs to the end of the
    input; a bad string, at a newline; or a backslash, whose escapes this
    model does not follow. *)
Inductive string_token :=
| Closed (value rest : string)
| Unterminated (value : string)
| BadString
| Escape.

Fixpoint consume_string (s : string) : string_token :=
  match s with
  | EmptyString => Unterminated EmptyString
  | String c s' =>
      if Ascii.eqb c DQUOTE then Closed EmptyString s'
      else if is_css_newline c then BadString
      else if Ascii.eqb c BACKSLASH then Escape
      else
        let lit :=
          if Ascii.eqb c NUL then REPLACEMENT else String c EmptyString in
        match consume_string s' with
        | Closed v r => Closed (lit +:+ v) r
        | Unterminated v => Unterminated (lit +:+ v)
        | t => t
        end
  end.

(** A compound selector of a type selector and one attribute selector that
    asks for an exact value. *)
Record selector := Selector {
  sel_type : string;
  sel_attribute : string;
  sel_value : string
}.

(** The reading of a selector text: a selector; a text that is no selector
    (querySelector throws SyntaxError); or a text that this model does not
    read ([Beyond]: it may or may not be a selector), because it goes on
    after the first attribute selector, uses escapes, or ends before the
    closing bracket. *)
Inductive parsed :=
| Parsed (s : selector)
| Malformed
| Beyond.

(** A character that may begin an identifier or a comment: after the
    attribute's value it could start the modifier [i] or [s].  U+0000 is
    read as U+FFFD, which an identifier may start with. *)
Definition may_begin_modifier (c : ascii) : bool :=
  let n := nat_of_ascii c in
  (65 <=? n)%nat && (n <=? 90)%nat || (97 <=? n)%nat && (n <=? 122)%nat
  || (128 <=? n)%nat || Ascii.eqb c "_" || Ascii.eqb c "-"
  || Ascii.eqb c BACKSLASH || Ascii.eqb c "/" || Ascii.eqb c NUL.

(** The text after the value's closing quote, inside the bracket: blanks,
    then the closing bracket and the end of the text.  Any token other
    than a blank, an identifier or the bracket makes the text no
    selector. *)
Fixpoint after_value (s : selector) (rest : string) : parsed :=
  match rest with
  | EmptyString => Beyond
  | String c rest' =>
      if Ascii.eqb c SPACE || Ascii.eqb c TAB || is_css_newline c
      then after_value s rest'
      else if Ascii.eqb c "]"
      then match rest' with EmptyString => Parsed s | _ => Beyond end
      else if may_begin_modifier c then Beyond
      else Malformed
  end.

Fixpoint strip_prefix (p s : string) : option string :=
  match p, s with
  | EmptyString, _ => Some s
  | String a p', String b s' => if Ascii.eqb a b then strip_prefix p' s' else None
  | String _ _, EmptyString => None
  end.

(** The opening of every selector text this program builds. *)
Definition selector_opening : string :=
  "input[name=" +:+ String DQUOTE EmptyString.

(** The reading of the selector texts that begin with [selector_opening]. *)
Definition parse_selector (text : string) : parsed :=
  match strip_prefix selector_opening text with
  | None => Beyond
  | Some body =>
      match consume_string body with
      | Closed v rest => after_value (Selector "input" "name" v) rest
      | BadString => Malformed
      | Unterminated _ | Escape => Beyond
      end
  end.

(** An element matches such a selector when its local name is the type
    and it has the attribute with exactly that value; the values of the
    name attribute are compared case-sensitively.  Other nodes match
    nothing. *)
Definition matches (s : selector) (n : node) : bool :=
  match n with
  | Elem t _ _ =>
      bool_decide (t = sel_type s)
      && bool_decide (getAttribute n (sel_attribute s) = Some (sel_value s))
  | _ => false
  end.

(** ** The page and the effects of a script *)

Inductive DOMException := SyntaxError | InvalidCharacterError.

(** How an evaluation ends: with a value, with a thrown exception, or
    outside of what this model determines (a lookup with a selector text
    that [parse_selector] leaves unread). *)
Inductive completion (A : Type) :=
| Normal (a : A)
| Throw (e : DOMException)
| Undetermined.
Arguments Normal {A} a.
Arguments Throw {A} e.
Arguments Undetermined {A}.

Inductive level := Warn.

(** What a script can observe and change: the children of the document
    node and the messages on the console, oldest first. *)
Record page := Page {
  document : list node;
  console : list (level * string)
}.

(** A script step: from a page to a completion and the page after. *)
Definition js (A : Type) : Type := page -> completion A * page.

#[export] Instance js_ret : MRet js := fun A a w => (Normal a, w).
#[export] Instance js_bind : MBind js := fun A B f m w =>
  match m w with
  | (Normal a, w') => f a w'
  | (Throw e, w') => (Throw e, w')
  | (Undetermined, w') => (Undetermined, w')
  end.

Definition throw {A} (e : DOMException) : js A := fun w => (Throw e, w).
Definition undetermined {A} : js A := fun w => (Undetermined, w).

(** ** Values a script passes *)

(** The values an option object's properties hold here; a property that
    is missing reads as [JSUndefined].  Numbers and objects are left out. *)
Inductive jsval :=
| JSUndefined
| JSNull
| JSBoolean (b : bool)
| JSString (s : string).

(** ECMAScript ToString, which Web IDL applies to a value given where a
    DOMString is expected. *)
Definition ToString (v : jsval) : string :=
  match v with
  | JSUndefined => "undefined"
  | JSNull => "null"
  | JSBoolean true => "true"
  | JSBoolean false => "false"
  | JSString s => s
  end.

(** Web IDL's conversion to a nullable DOMString: null and undefined are
    the null value, anything else its ToString. *)
Definition to_nullable_DOMString (v : jsval) : option string :=
  match v with
  | JSUndefined | JSNull => None
  | _ => Some (ToString v)
  end.

(** An element of the [options] array: an object read at [label] and
    [value]. *)
Record option_object := { label : jsval; value : jsval }.

(** ** The host operations the function calls *)

(** [document.querySelector(text)]: the first element of the document, in
    tree order, that matches; [None] is null.  A text that is no selector
    throws. *)
Definition querySelector (text : string) : js (option path) :=
  match parse_selector text with
  | Parsed s => fun w =>
      (Normal (first_in_document (matches s) (document w)), w)
  | Malformed => throw SyntaxError
  | Beyond => undetermined
  end.

(** [console.warn(message)]. *)
Definition console_warn (message : string) : js unit := fun w =>
  (Normal tt, Page (document w) (console w ++ [(Warn, message)])).

(** [document.createElement(localName)] in an HTML document: a new element
    of that name in lower case, without attributes or children, in no
    tree.  The function calls it with two constant names, both valid. *)
Definition createElement (name : string) : js node :=
  mret (Elem (ascii_lowercase name) [] []).

(** [element.attributes] of an element of the document, read as
    [Array.from] copies it: the attribute list in its order. *)
Definition attributes_of (el : path) : js (list attr) := fun w =>
  (Normal (from_option attributes [] (node_at (document w) el)), w).

(** DOM Standard, valid attribute local name: a string that is not empty
    and holds no ASCII whitespace, U+0000, slash, equals sign or
    greater-than sign. *)
Definition valid_attribute_local_name (s : string) : bool :=
  negb (bool_decide (s = EmptyString))
  && string_forallb
       (fun c =>
          negb (is_ascii_whitespace c || Ascii.eqb c NUL || Ascii.eqb c "/"
                || Ascii.eqb c "=" || Ascii.eqb c ">"))
       s.

(** DOM, set an attribute value: the first attribute of that name gets the
    value; without one, a new attribute goes to the end of the list. *)
Fixpoint attr_set (name val : string) (l : list attr) : list attr :=
  match l with
  | [] => [Attr name val]
  | a :: l' =>
      if bool_decide (attr_name a = name) then Attr name val :: l'
      else a :: attr_set name val l'
  end.

Definition with_attribute (name val : string) (n : node) : node :=
  match n with
  | Elem t a ks => Elem t (attr_set name val a) ks
  | _ => n
  end.

(** [element.setAttribute(qualifiedName, value)] on an HTML element of an
    HTML document: InvalidCharacterError for a name that is no valid
    attribute local name; otherwise the name is put in ASCII lower case
    and the attribute set. *)
Definition setAttribute (el : node) (qualifiedName val : string) : js node :=
  if valid_attribute_local_name qualifiedName
  then mret (with_attribute (ascii_lowercase qualifiedName) val el)
  else throw InvalidCharacterError.

(** [option.value = v]: the setter of HTMLOptionElement's [value] sets the
    content attribute [value] to the DOMString of [v]. *)
Definition set_value (el : node) (v : jsval) : js node :=
  mret (with_attribute "value" (ToString v) el).

(** [node.textContent = v] on an element: a nullable DOMString, null being
    the empty string; all children are replaced by one text node with the
    string, or by nothing when the string is empty. *)
Definition set_textContent (el : node) (v : jsval) : js node :=
  let s := default EmptyString (to_nullable_DOMString v) in
  mret match el with
       | Elem t a _ =>
           Elem t a (if bool_decide (s = EmptyString) then [] else [Text s])
       | _ => el
       end.

(** [parent.appendChild(child)] for an element child: the child becomes the
    last child. *)
Definition appendChild (parent child : node) : js node :=
  mret match parent with
       | Elem t a ks => Elem t a (ks ++ [child])
       | _ => parent
       end.

(** [old.parentNode.replaceChild(new, old)] for an element [old] of the
    document and a new element that is in no tree: [new] takes the place
    of [old] among the children of its parent.  The checks of the DOM's
    replace algorithm pass for such a pair: in a document the element
    child is the only one and no doctype follows it. *)
Definition replaceChild (new : node) (old : path) : js unit := fun w =>
  (Normal tt, Page (replace_at (document w) old new) (console w)).

(** [array.forEach(callback)] where the callback updates a local object:
    the object is handed from one call to the next. *)
Fixpoint forEach {A S : Type} (l : list A) (callback : S -> A -> js S)
    (s : S) : js S :=
  match l with
  | [] => mret s
  | x :: l' => s' ← callback s x; forEach l' callback s'
  end.

(** ** The function *)

(** The template literal of line 8. *)
Definition selector_text (fieldName : string) : string :=
  selector_opening +:+ fieldName +:+ String DQUOTE "]".

(** The template literal of line 11. *)
Definition not_found_message (fieldName : string) : string :=
  "Input with name " +:+ String DQUOTE fieldName
  +:+ String DQUOTE " not found".

(** [replaceInputWithSelect(fieldName, options)], lines 6 to 35.  The
    result is the select element, or [None] for undefined. *)
Definition replaceInputWithSelect (fieldName : string)
    (options : list option_object) : js (option node) :=
  input ← querySelector (selector_text fieldName);
  match input with
  | None =>
      console_warn (not_found_message fieldName);;
      mret None
  | Some input =>
      select ← createElement "select";
      attrs ← attributes_of input;
      select ← forEach attrs
        (fun select attr =>
           setAttribute select (attr_name attr) (attr_value attr))
        select;
      select ← forEach options
        (fun select opt =>
           option ← createElement "option";
           option ← set_value option (value opt);
           option ← set_textContent option (label opt);
           appendChild select option)
        select;
      replaceChild select input;;
      mret (Some select)
  end.

(** ** The message listener, lines 38 to 51 *)

(** [v === s] for a string literal [s]: true for that string only. *)
Definition strict_equals_string (v : jsval) (s : string) : bool :=
  match v with
  | JSString t => bool_decide (t = s)
  | _ => false
  end.

(** What [event.data] holds, a structured clone of the posted value: a
    primitive, or an object read at [type] and [eventName] (a property
    the object lacks reads as undefined). *)
Inductive message_data :=
| Primitive (v : jsval)
| Object (type eventName : jsval).

(** A message event: the listener reads [data] and nothing else, not the
    origin the message came from. *)
Record message_event := { data : message_data; origin : string }.

(** Reading a property of [event.data]: TypeError ([None]) on null and
    undefined, undefined on the other primitives, the property of an
    object. *)
Definition data_type (d : message_data) : option jsval :=
  match d with
  | Primitive JSUndefined | Primitive JSNull => None
  | Primitive _ => Some JSUndefined
  | Object t _ => Some t
  end.

Definition data_eventName (d : message_data) : option jsval :=
  match d with
  | Primitive JSUndefined | Primitive JSNull => None
  | Primitive _ => Some JSUndefined
  | Object _ n => Some n
  end.

(** What a listener can throw, and how a call of it ends: it returns, it
    throws, or the call it made ended outside of what the model
    determines. *)
Inductive exception := TypeError | DOMError (e : DOMException).

Inductive listener_end := Returned | Uncaught (e : exception) | Unread.

(** The option list of lines 41 to 46. *)
Definition myOptions : list option_object :=
  [ {| label := JSString "Select an option"; value := JSString EmptyString |};
    {| label := JSString "Option 1"; value := JSString "option1" |};
    {| label := JSString "Option 2"; value := JSString "option2" |};
    {| label := JSString "Option 3"; value := JSString "option3" |} ].

(** The arrow function of lines 38 to 51: the two comparisons of line 39,
    left to right, the second only when the first holds; then the call of
    line 49, whose result is dropped. *)
Definition on_message (event : message_event) (w : page)
    : listener_end * page :=
  match data_type (data event) with
  | None => (Uncaught TypeError, w)
  | Some t =>
      if strict_equals_string t "hsFormCallback" then
        match data_eventName (data event) with
        | None => (Uncaught TypeError, w)
        | Some n =>
            if strict_equals_string n "onFormReady" then
              match replaceInputWithSelect "fieldName" myOptions w with
              | (Normal _, w') => (Returned, w')
              | (Throw e, w') => (Uncaught (DOMError e), w')
              | (Undetermined, w') => (Unread, w')
              end
            else (Returned, w)
        end
      else (Returned, w)
  end.


(** ** The year options of the usage notes, lines 123 to 138 *)

(** [year.toString()] for an integer year: its decimal notation, with a
    minus sign below zero (every year a Date gives is far below the
    magnitude at which a number is printed with an exponent). *)
Definition year_toString (year : Z) : string := pretty year.

(** The object pushed at lines 131 to 134. *)
Definition year_option (year : Z) : option_object :=
  {| label := JSString (year_toString year);
     value := JSString (year_toString year) |}.

(** The loop of lines 130 to 135: while the year is at most the last
    year, push its option and go to the next year. *)
Equations? for_years (year endYear : Z) (years : list option_object)
  : list option_object by wf (Z.to_nat (endYear + 1 - year)) lt :=
  for_years year endYear years with decide (year <= endYear)%Z := {
    | left _ => for_years (year + 1) endYear (years ++ [year_option year]);
    | right _ => years }.
Proof. lia. Qed.

(** The first entry of the list, line 128. *)
Definition year_placeholder : option_object :=
  {| label := JSString "Select a year"; value := JSString EmptyString |}.

(** [generateYearOptions()], with the year that
    [new Date().getFullYear()] reads from the clock as an argument. *)
Definition generateYearOptions (currentYear : Z) : list option_object :=
  let startYear := (currentYear - 10)%Z in
  let endYear := (currentYear + 5)%Z in
  let years := [year_placeholder] in
  for_years startYear endYear years.

(** ** Notions the statements use *)

(** A field name that the template of line 8 leaves inside the selector's
    string: no double quote, backslash, line break or U+0000. *)
Definition plain_name (f : string) : bool :=
  string_forallb
    (fun c =>
       negb (Ascii.eqb c DQUOTE || Ascii.eqb c BACKSLASH || is_css_newline c
             || Ascii.eqb c NUL))
    f.

(** An element of any kind whose [name] attribute is [f]. *)
Definition named (f : string) (n : node) : bool :=
  bool_decide (getAttribute n "name" = Some f).

(** An [input] element whose [name] attribute is [f]. *)
Definition input_named (f : string) : node -> bool :=
  matches (Selector "input" "name" f).

(** [n], at position [p], is the first node of the document, in tree
    order, that [m] accepts. *)
Definition first_match (m : node -> bool) (doc : list node) (p : path)
    (n : node) : Prop :=
  node_at doc p = Some n /\ m n = true /\
  forall q n', node_at doc q = Some n' -> m n' = true ->
               q = p \/ precedes p q = true.

(** Attribute names that [setAttribute] accepts. *)
Definition valid_names (l : list attr) : bool :=
  forallb (fun a => valid_attribute_local_name (attr_name a)) l.

(** Attribute names that [setAttribute] stores as they are, each in an
    attribute of its own: valid, in ASCII lower case, pairwise distinct. *)
Definition verbatim_names (l : list attr) : Prop :=
  valid_names l = true /\
  Forall (fun a => ascii_lowercase (attr_name a) = attr_name a) l /\
  NoDup (attr_name <$> l).

(** The children of the node at a position; of the document at [[]]. *)
Definition children_at (doc : list node) (p : path) : option (list node) :=
  match p with
  | [] => Some doc
  | _ => childNodes <$> node_at doc p
  end.

(** What the two loops build, as functions: the attribute list after the
    copy loop of lines 19 to 21, and the option element of one turn of the
    loop of lines 24 to 29. *)
Definition copied (l : list attr) : list attr :=
  fold_left
    (fun acc a => attr_set (ascii_lowercase (attr_name a)) (attr_value a) acc)
    l [].

Definition choice (o : option_object) : node :=
  let s := default EmptyString (to_nullable_DOMString (label o)) in
  Elem "option" [Attr "value" (ToString (value o))]
    (if bool_decide (s = EmptyString) then [] else [Text s]).

(** The whole call as one expression. *)
Definition outcome (f : string) (opts : list option_object) (w : page)
    : completion (option node) * page :=
  match parse_selector (selector_text f) with
  | Malformed => (Throw SyntaxError, w)
  | Beyond => (Undetermined, w)
  | Parsed s =>
      match first_in_document (matches s) (document w) with
      | None =>
          (Normal None,
           Page (document w) (console w ++ [(Warn, not_found_message f)]))
      | Some p =>
          let src := from_option attributes [] (node_at (document w) p) in
          if valid_names src then
            let select := Elem "select" (copied src) (choice <$> opts) in
            (Normal (Some select),
             Page (replace_at (document w) p select) (console w))
          else (Throw InvalidCharacterError, w)
      end
  end.

(** The position-relative view of a subtree: [[]] is its root. *)
Definition sub_at (n : node) (p : path) : option node :=
  match p with
  | [] => Some n
  | _ => node_at (childNodes n) p
  end.

(** What [first_below] has to return: the first node of the subtree
    that [m] accepts, or nothing when [m] accepts none. *)
Definition first_below_ok (m : node -> bool) (n : node) : Prop :=
  match first_below m n with
  | Some p =>
      exists x, sub_at n p = Some x /\ m x = true /\
        forall q x', sub_at n q = Some x' -> m x' = true ->
                     q = p \/ precedes p q = true
  | None => forall q x', sub_at n q = Some x' -> m x' = false
  end.

(** A subtree with the node at a position below its root exchanged. *)
Definition sub_replace (n : node) (p : path) (new : node) : node :=
  match p with
  | [] => new
  | _ =>
      match n with
      | Elem t a ks => Elem t a (replace_at ks p new)
      | _ => n
      end
  end.

(** The document node seen as the root of the tree. *)
Definition root (doc : list node) : node := Elem "#document" [] doc.

(** The message that HubSpot posts when a form is ready. *)
Definition is_form_ready (d : message_data) : bool :=
  match d with
  | Object t n =>
      strict_equals_string t "hsFormCallback"
      && strict_equals_string n "onFormReady"
  | Primitive _ => false
  end.

(** Data on which reading a property throws. *)
Definition is_nullish (d : message_data) : bool :=
  match d with
  | Primitive JSUndefined | Primitive JSNull => true
  | _ => false
  end.


(** An attribute as [setAttribute] stores it: the name in lower case. *)
Definition lowercased (a : attr) : attr :=
  Attr (ascii_lowercase (attr_name a)) (attr_value a).


(** ** Pages and options for the examples *)

(** The input of the scenario: name, id and class. *)
Definition size_input : node :=
  Elem "input" [Attr "name" "size"; Attr "id" "x"; Attr "class" "y"] [].

(** A form with a label before the input and a button after it. *)
Definition form_page : page :=
  Page
    [Elem "html" []
       [Elem "body" []
          [Elem "form" []
             [Elem "label" [] [Text "Size"];
              size_input;
              Elem "button" [] [Text "Send"]]]]]
    [].

Definition size_position : path := [0; 0; 0; 1].

Definition small_large : list option_object :=
  [ {| label := JSString "Small"; value := JSString "s" |};
    {| label := JSString "Large"; value := JSString "l" |} ].

(** A field whose element is a textarea, followed by an input of the same
    name. *)
Definition textarea_size : node := Elem "textarea" [Attr "name" "size"] [].

Definition textarea_page : page :=
  Page [Elem "html" [] [Elem "body" [] [textarea_size]]] [].

Definition textarea_then_input_page : page :=
  Page [Elem "html" [] [Elem "body" [] [textarea_size; size_input]]] [].

(** An input inside svg markup: the HTML parser gives its attribute the
    mixed-case name viewBox. *)
Definition viewBox_input : node :=
  Elem "input" [Attr "name" "size"; Attr "viewBox" "0 0 1 1"] [].

Definition viewBox_page : page :=
  Page [Elem "html" [] [Elem "body" [] [Elem "svg" [] [viewBox_input]]]] [].

(** An input written with a stray equals sign, as in name=size =x: the
    HTML parser makes an attribute whose name begins with the sign. *)
Definition stray_equals_input : node :=
  Elem "input" [Attr "name" "size"; Attr "=x" EmptyString] [].

Definition stray_equals_page : page :=
  Page [Elem "html" [] [Elem "body" [] [stray_equals_input]]] [].

(** Two inputs of one name, told apart by their id. *)
Definition size_input_b : node :=
  Elem "input" [Attr "name" "size"; Attr "id" "b"] [].

Definition two_inputs_page : page :=
  Page [Elem "html" [] [Elem "body" [] [size_input; size_input_b]]] [].

(** A form with two fields, size and colour. *)
Definition colour_input : node :=
  Elem "input" [Attr "name" "colour"; Attr "type" "text"] [].

Definition two_fields_page : page :=
  Page
    [Elem "html" []
       [Elem "body" []
          [Elem "form" []
             [Elem "div" [] [size_input]; Elem "div" [] [colour_input]]]]]
    [].

Definition red_blue : list option_object :=
  [ {| label := JSString "Red"; value := JSString "r" |};
    {| label := JSString "Blue"; value := JSString "b" |} ].

(** A form whose input has the name the listener asks for. *)
Definition fieldName_input : node :=
  Elem "input" [Attr "name" "fieldName"; Attr "class" "hs-input"] [].

Definition hubspot_page : page :=
  Page
    [Elem "html" []
       [Elem "body" [] [Elem "form" [] [fieldName_input]]]]
    [].

(** The form-ready message, a message of another kind, and a message
    whose data is null. *)
Definition ready_event : message_event :=
  {| data := Object (JSString "hsFormCallback") (JSString "onFormReady");
     origin := "https://forms.hsforms.com" |}.

Definition submit_event : message_event :=
  {| data := Object (JSString "hsFormCallback") (JSString "onFormSubmit");
     origin := "https://forms.hsforms.com" |}.

Definition null_event : message_event :=
  {| data := Primitive JSNull; origin := "https://example.org" |}.

(** An input with attribute names in mixed case, one of them twice up
    to case. *)
Definition mixed_case_input : node :=
  Elem "input"
    [Attr "name" "size"; Attr "dataKey" "k"; Attr "Title" "t";
     Attr "title" "u"]
    [].

Definition mixed_case_page : page :=
  Page [Elem "html" [] [Elem "body" [] [mixed_case_input]]] [].

(** The field name that is one double quote. *)
Definition quote_name : string := String DQUOTE EmptyString.

(** An input whose name is that double quote. *)
Definition quote_input : node := Elem "input" [Attr "name" quote_name] [].

Definition quote_page : page :=
  Page [Elem "html" [] [Elem "body" [] [quote_input]]] [].

(** An option object without a value, and one without a label. *)
Definition no_value : option_object :=
  {| label := JSString "Pick one"; value := JSUndefined |}.

Definition no_label : option_object :=
  {| label := JSUndefined; value := JSString "s" |}.

(** * Properties *)

(** ** Trees and positions *)

Lemma node_tree_ind (P : node -> Prop) :
  (forall t a ks, Forall P ks -> P (Elem t a ks)) ->
  (forall d, P (Text d)) ->
  (forall d, P (Comment d)) ->
  forall n, P n.
Proof.
  intros HE HT HC. fix IH 1. intros [t a ks|d|d]; [|apply HT|apply HC].
  apply HE. induction ks as [|k ks IHks]; constructor; [apply IH|exact IHks].
Qed.

Lemma node_at_cons ns i p :
  node_at ns (i :: p) = ns !! i ≫= fun n => sub_at n p.
Proof. simpl. destruct (ns !! i); [|done]. by destruct p. Qed.

Lemma precedes_irrefl p : precedes p p = false.
Proof.
  induction p as [|i p IH]; [done|]. simpl.
  rewrite bool_decide_eq_false_2 by lia. by rewrite bool_decide_eq_true_2.
Qed.

Lemma precedes_asym p q : precedes p q = true -> precedes q p = false.
Proof.
  revert q. induction p as [|i p IH]; intros [|j q]; simpl; try done.
  repeat case_bool_decide; try done; try lia. subst. apply IH.
Qed.

Lemma precedes_total p q : p = q \/ precedes p q = true \/ precedes q p = true.
Proof.
  revert q. induction p as [|i p IH]; intros [|j q]; simpl; auto.
  destruct (IH q) as [->|[H|H]]; repeat case_bool_decide; subst; auto; try lia.
  all: destruct (decide (i < j)); try lia; auto.
Qed.

(** ** The first match in tree order *)

Section first_match_facts.
Context (m : node -> bool).

Lemma scan_children_Some below l i p :
  scan_children below l i = Some p ->
  exists j k p', p = (i + j) :: p' /\ l !! j = Some k /\ below k = Some p' /\
    forall j' k', j' < j -> l !! j' = Some k' -> below k' = None.
Proof.
  revert i. induction l as [|k l IH]; intros i; simpl; [done|].
  destruct (below k) as [p'|] eqn:Hk.
  - intros [= <-]. exists 0, k, p'. rewrite Nat.add_0_r.
    repeat split; auto. intros; lia.
  - intros (j & k0 & p' & -> & Hj & Hb & Hlt)%IH.
    exists (S j), k0, p'. replace (i + S j) with (S i + j) by lia.
    repeat split; auto. intros [|j'] k' ? Hk'; simpl in Hk'.
    + by injection Hk' as <-.
    + apply (Hlt j'); [lia|done].
Qed.

Lemma scan_children_None below l i :
  scan_children below l i = None ->
  forall j k, l !! j = Some k -> below k = None.
Proof.
  revert i. induction l as [|k l IH]; intros i; simpl; [done|].
  destruct (below k) as [p'|] eqn:Hk; [done|].
  intros H [|j] k'; simpl; [by intros [= <-]|]. by apply (IH _ H).
Qed.

Lemma scan_children_ok l :
  Forall (first_below_ok m) l ->
  match scan_children (first_below m) l 0 with
  | Some p =>
      exists x, node_at l p = Some x /\ m x = true /\
        forall q x', node_at l q = Some x' -> m x' = true ->
                     q = p \/ precedes p q = true
  | None => forall q x', node_at l q = Some x' -> m x' = false
  end.
Proof.
  intros Hl. destruct (scan_children _ l 0) as [p|] eqn:Hscan.
  - apply scan_children_Some in Hscan as (j & k & p' & -> & Hj & Hk & Hlt).
    change (0 + j) with j.
    pose proof (proj1 (Forall_lookup _ _) Hl j k Hj) as Hok.
    unfold first_below_ok in Hok. rewrite Hk in Hok.
    destruct Hok as (x & Hx & Hm & Hfirst). exists x. split; [|split; [done|]].
    { rewrite node_at_cons, Hj. done. }
    intros [|j' q'] x'; [done|]. rewrite node_at_cons.
    destruct (l !! j') as [k'|] eqn:Hj'; [simpl|done]. intros Hx' Hm'.
    destruct (lt_eq_lt_dec j' j) as [[Hlt'| ->]|Hgt].
    + pose proof (proj1 (Forall_lookup _ _) Hl j' k' Hj') as Hok'.
      unfold first_below_ok in Hok'. rewrite (Hlt j' k' Hlt' Hj') in Hok'.
      rewrite (Hok' _ _ Hx') in Hm'. done.
    + replace k' with k in * by congruence.
      destruct (Hfirst _ _ Hx' Hm') as [->|Hp]; [by left|right].
      rewrite bool_decide_eq_false_2 by lia. by rewrite bool_decide_eq_true_2.
    + right. by rewrite bool_decide_eq_true_2.
  - intros [|j q] x'; [done|]. rewrite node_at_cons.
    destruct (l !! j) as [k|] eqn:Hj; [simpl|done]. intros Hx'.
    pose proof (proj1 (Forall_lookup _ _) Hl j k Hj) as Hok.
    unfold first_below_ok in Hok.
    rewrite (scan_children_None _ _ _ Hscan j k Hj) in Hok. eauto.
Qed.

Lemma first_below_spec n : first_below_ok m n.
Proof.
  induction n as [t a ks IH|d|d] using node_tree_ind; unfold first_below_ok;
    simpl; destruct (m _) eqn:Hm.
  - eexists; repeat split; [done|]. intros [|j q] x' _ _; auto.
  - pose proof (scan_children_ok ks IH) as Hks.
    destruct (scan_children _ ks 0) as [p|].
    + destruct Hks as (x & Hx & Hmx & Hfirst). exists x.
      assert (p <> []) by (intros ->; done).
      split; [by destruct p|split; [done|]].
      intros [|j q] x'; simpl.
      * intros [= <-]. congruence.
      * intros Hx' Hm'. apply (Hfirst (j :: q) x'); done.
    + intros [|j q] x'; simpl; [congruence|]. apply (Hks (j :: q)).
  - eexists; repeat split; [done|]. intros [|j q] x' _ _; auto.
  - intros [|j q] x'; simpl; [congruence|done].
  - eexists; repeat split; [done|]. intros [|j q] x' _ _; auto.
  - intros [|j q] x'; simpl; [congruence|done].
Qed.

Lemma first_in_document_Some doc p :
  first_in_document m doc = Some p -> exists n, first_match m doc p n.
Proof.
  intros H. pose proof (scan_children_ok doc) as Hok.
  unfold first_in_document in H. rewrite H in Hok.
  destruct Hok as (x & ? & ? & ?).
  - apply Forall_forall. intros; apply first_below_spec.
  - by exists x.
Qed.

Lemma first_in_document_None doc :
  first_in_document m doc = None ->
  forall q n, node_at doc q = Some n -> m n = false.
Proof.
  intros H. pose proof (scan_children_ok doc) as Hok.
  unfold first_in_document in H. rewrite H in Hok.
  apply Hok, Forall_forall. intros; apply first_below_spec.
Qed.

Lemma first_match_unique doc p n p' n' :
  first_match m doc p n -> first_match m doc p' n' -> p = p' /\ n = n'.
Proof.
  intros (Hp & Hm & Hfirst) (Hp' & Hm' & Hfirst').
  assert (p = p') as <-.
  { destruct (Hfirst _ _ Hp' Hm') as [->|H1]; [done|].
    destruct (Hfirst' _ _ Hp Hm) as [->|H2]; [done|].
    apply precedes_asym in H1. congruence. }
  split; congruence.
Qed.

Lemma first_match_found doc p n :
  first_match m doc p n -> first_in_document m doc = Some p.
Proof.
  intros Hfm. destruct (first_in_document m doc) as [p'|] eqn:H.
  - apply first_in_document_Some in H as [n' H].
    by destruct (first_match_unique _ _ _ _ _ H Hfm) as [-> _].
  - destruct Hfm as (Hp & Hm & _).
    rewrite (first_in_document_None _ H _ _ Hp) in Hm. done.
Qed.

End first_match_facts.

(** ** Exchanging the node at a position *)

Lemma sub_at_cons n i p :
  sub_at n (i :: p) = childNodes n !! i ≫= fun k => sub_at k p.
Proof. unfold sub_at at 1. apply node_at_cons. Qed.

Lemma replace_at_cons ns i p new :
  replace_at ns (i :: p) new = alter (fun k => sub_replace k p new) i ns.
Proof.
  simpl. destruct p as [|j p].
  - simpl. revert i. induction ns as [|n ns IH]; intros [|i]; simpl; auto.
    by rewrite IH.
  - destruct (ns !! i) as [n|] eqn:Hi.
    + apply list_eq. intros k. destruct (decide (k = i)) as [->|Hne].
      * rewrite list_lookup_alter_eq, Hi. simpl.
        destruct n; [|done..]. rewrite list_lookup_insert_eq; [done|].
        by eapply lookup_lt_Some.
      * rewrite list_lookup_alter_ne by done.
        destruct n; [|done..]. by rewrite list_lookup_insert_ne.
    + apply list_eq. intros k. destruct (decide (k = i)) as [->|Hne].
      * by rewrite list_lookup_alter_eq, Hi.
      * by rewrite list_lookup_alter_ne.
Qed.

Lemma sub_replace_cons n i p new :
  childNodes (sub_replace n (i :: p) new)
  = alter (fun k => sub_replace k p new) i (childNodes n).
Proof.
  destruct n as [t a ks|d|d]; [|done..].
  unfold sub_replace. apply replace_at_cons.
Qed.

Lemma sub_replace_shell n i p new :
  localName (sub_replace n (i :: p) new) = localName n /\
  attributes (sub_replace n (i :: p) new) = attributes n.
Proof. by destruct n. Qed.

(** Below the exchanged position's ancestors the exchange goes on; at the
    position itself the new node stands. *)
Lemma sub_at_replace_prefix new q r n x :
  sub_at n q = Some x ->
  sub_at (sub_replace n (q ++ r) new) q = Some (sub_replace x r new).
Proof.
  revert n. induction q as [|i q IH]; intros n.
  - simpl. by intros [= ->].
  - rewrite sub_at_cons. destruct (childNodes n !! i) as [k|] eqn:Hi; [|done].
    intros Hx. change ((i :: q) ++ r) with (i :: (q ++ r)).
    rewrite sub_at_cons, sub_replace_cons, list_lookup_alter_eq, Hi.
    by apply IH.
Qed.

(** Away from the exchanged position, its ancestors and its descendants,
    nothing changes. *)
Lemma sub_at_replace_apart new p q n :
  ~ p `prefix_of` q -> ~ q `prefix_of` p ->
  sub_at (sub_replace n p new) q = sub_at n q.
Proof.
  revert q n. induction p as [|i p IH]; intros [|j q] n Hpq Hqp.
  - destruct Hpq. done.
  - destruct Hpq. apply prefix_nil.
  - destruct Hqp. apply prefix_nil.
  - rewrite !sub_at_cons, sub_replace_cons.
    destruct (decide (i = j)) as [->|Hne].
    + rewrite list_lookup_alter_eq.
      destruct (childNodes n !! j) as [k|]; [simpl|done].
      apply IH; intros H; [apply Hpq|apply Hqp]; by apply prefix_cons.
    + by rewrite list_lookup_alter_ne.
Qed.

Lemma node_at_root doc p : p <> [] -> node_at doc p = sub_at (root doc) p.
Proof. by destruct p. Qed.

Lemma replace_at_root doc p new :
  p <> [] -> replace_at doc p new = childNodes (sub_replace (root doc) p new).
Proof. by destruct p. Qed.

Lemma root_replace doc p new :
  p <> [] -> sub_replace (root doc) p new = root (replace_at doc p new).
Proof. by destruct p. Qed.

Lemma children_at_root doc p :
  children_at doc p = childNodes <$> sub_at (root doc) p.
Proof. by destruct p. Qed.

Lemma node_at_replace_at doc p src new :
  node_at doc p = Some src -> node_at (replace_at doc p new) p = Some new.
Proof.
  intros H. assert (p <> []) as Hp by (intros ->; done).
  rewrite node_at_root in H by done.
  rewrite node_at_root, <- root_replace by done.
  pose proof (sub_at_replace_prefix new p [] _ _ H) as H'.
  by rewrite app_nil_r in H'.
Qed.

Lemma node_at_replace_at_apart doc p q new :
  ~ p `prefix_of` q -> ~ q `prefix_of` p ->
  node_at (replace_at doc p new) q = node_at doc q.
Proof.
  intros Hpq Hqp.
  assert (p <> []) as Hp by (intros ->; apply Hpq, prefix_nil).
  assert (q <> []) as Hq by (intros ->; apply Hqp, prefix_nil).
  rewrite !node_at_root, <- root_replace by done.
  by apply sub_at_replace_apart.
Qed.

Lemma alter_const_insert (new : node) i (l : list node) :
  alter (fun _ => new) i l = <[i := new]> l.
Proof.
  revert i. induction l as [|x l IH]; intros [|i]; simpl; auto.
  by rewrite <- IH.
Qed.

(** The exchange seen from the parent: its child list with one entry
    exchanged. *)
Lemma children_at_replace_at doc pp i src new :
  node_at doc (pp ++ [i]) = Some src ->
  exists sibs,
    children_at doc pp = Some sibs /\ sibs !! i = Some src /\
    children_at (replace_at doc (pp ++ [i]) new) pp = Some (<[i := new]> sibs).
Proof.
  intros H. assert (pp ++ [i] <> []) as Hp by (by destruct pp).
  rewrite node_at_root in H by done. rewrite !children_at_root.
  rewrite <- root_replace by done.
  assert (exists x, sub_at (root doc) pp = Some x /\ childNodes x !! i = Some src)
    as (x & Hx & Hi).
  { revert H. generalize (root doc). induction pp as [|j pp IH]; intros n.
    - simpl. intros Hn. exists n. split; [done|].
      by destruct (childNodes n !! i).
    - change ((j :: pp) ++ [i]) with (j :: (pp ++ [i])). rewrite !sub_at_cons.
      destruct (childNodes n !! j) as [k|]; [simpl|done].
      apply IH. by destruct pp. }
  exists (childNodes x). rewrite Hx. split; [done|split; [done|]].
  rewrite (sub_at_replace_prefix new pp [i] _ _ Hx).
  change (Some (childNodes (sub_replace x [i] new)) = Some (<[i:=new]> (childNodes x))).
  rewrite sub_replace_cons. f_equal. exact (alter_const_insert new i _).
Qed.

Lemma sub_at_app n p r :
  sub_at n (p ++ r) = sub_at n p ≫= fun x => sub_at x r.
Proof.
  revert n. induction p as [|i p IH]; intros n; [done|].
  change ((i :: p) ++ r) with (i :: (p ++ r)). rewrite !sub_at_cons.
  destruct (childNodes n !! i) as [k|]; [|done]. apply IH.
Qed.

Lemma node_at_app doc p r :
  p <> [] -> node_at doc (p ++ r) = node_at doc p ≫= fun x => sub_at x r.
Proof.
  intros Hp. assert (p ++ r <> []) by (by destruct p).
  rewrite !node_at_root by done. apply sub_at_app.
Qed.

Lemma length_replace_at doc p new :
  length (replace_at doc p new) = length doc.
Proof.
  destruct p as [|i p]; [done|]. rewrite replace_at_cons. apply length_alter.
Qed.

(** ** The selector of a plain field name *)

Lemma strip_prefix_app p s : strip_prefix p (p +:+ s) = Some s.
Proof.
  induction p as [|c p IH]; simpl; [by destruct s|].
  by rewrite Ascii.eqb_refl.
Qed.

Lemma consume_string_plain f rest :
  plain_name f = true ->
  consume_string (f +:+ String DQUOTE rest) = Closed f rest.
Proof.
  induction f as [|c f IH]; simpl; [done|].
  intros [Hc Hf]%andb_true_iff. apply negb_true_iff in Hc.
  repeat (apply orb_false_iff in Hc as [Hc ?]).
  rewrite Hc. replace (is_css_newline c) with false by done.
  replace (Ascii.eqb c BACKSLASH) with false by done.
  replace (Ascii.eqb c NUL) with false by done.
  by rewrite (IH Hf).
Qed.

Lemma parse_selector_plain f :
  plain_name f = true ->
  parse_selector (selector_text f) = Parsed (Selector "input" "name" f).
Proof.
  intros Hf. unfold parse_selector, selector_text.
  by rewrite strip_prefix_app, (consume_string_plain _ _ Hf).
Qed.

(** ** The two loops *)

Lemma forEach_setAttribute t ks (l acc : list attr) (w : page) :
  forEach l
    (fun select a => setAttribute select (attr_name a) (attr_value a))
    (Elem t acc ks) w
  = if valid_names l
    then (Normal
            (Elem t
               (fold_left
                  (fun acc a =>
                     attr_set (ascii_lowercase (attr_name a)) (attr_value a) acc)
                  l acc)
               ks), w)
    else (Throw InvalidCharacterError, w).
Proof.
  revert acc. induction l as [|a l IH]; intros acc; simpl; [done|].
  unfold mbind, js_bind, setAttribute.
  destruct (valid_attribute_local_name (attr_name a)); simpl; [|done].
  apply IH.
Qed.

Lemma forEach_options t a ks (opts : list option_object) (w : page) :
  forEach opts
    (fun select opt =>
       option ← createElement "option";
       option ← set_value option (value opt);
       option ← set_textContent option (label opt);
       appendChild select option)
    (Elem t a ks) w
  = (Normal (Elem t a (ks ++ (choice <$> opts))), w).
Proof.
  revert ks. induction opts as [|o opts IH]; intros ks; simpl.
  - by rewrite app_nil_r.
  - unfold mbind, js_bind at 1. simpl. rewrite IH.
    by rewrite <- app_assoc.
Qed.

(** The function, run on a page, is [outcome]. *)
Lemma replaceInputWithSelect_outcome f opts w :
  replaceInputWithSelect f opts w = outcome f opts w.
Proof.
  unfold replaceInputWithSelect, outcome, mbind, js_bind at 1, querySelector.
  destruct (parse_selector (selector_text f)) as [s| |]; [|done..].
  destruct (first_in_document (matches s) (document w)) as [p|]; [|done].
  unfold js_bind at 1, createElement, mret, js_ret.
  unfold js_bind at 1, attributes_of. unfold js_bind at 1.
  change (ascii_lowercase "select") with "select".
  rewrite forEach_setAttribute.
  destruct (valid_names _); [|done].
  unfold js_bind at 1. rewrite forEach_options. done.
Qed.

(** ** Attribute lists that the copy loop reproduces *)

Lemma attr_lookup_None name l :
  attr_lookup name l = None <-> name ∉ attr_name <$> l.
Proof.
  induction l as [|a l IH]; simpl.
  - split; [intros _; apply not_elem_of_nil|done].
  - case_bool_decide as Ha.
    + split; [done|]. intros []. rewrite Ha. apply list_elem_of_here.
    + rewrite IH, not_elem_of_cons.
      split; [intros H; split; [by intros ->|done]|by intros [_ ?]].
Qed.

Lemma attr_set_fresh name val l :
  name ∉ attr_name <$> l -> attr_set name val l = l ++ [Attr name val].
Proof.
  induction l as [|a l IH]; simpl; [done|].
  intros [Ha Hl]%not_elem_of_cons. rewrite bool_decide_eq_false_2 by done.
  by rewrite IH.
Qed.

Lemma fold_attr_set_verbatim (l acc : list attr) :
  Forall (fun a => ascii_lowercase (attr_name a) = attr_name a) l ->
  NoDup (attr_name <$> (acc ++ l)) ->
  fold_left
    (fun acc a => attr_set (ascii_lowercase (attr_name a)) (attr_value a) acc)
    l acc
  = acc ++ l.
Proof.
  revert acc. induction l as [|a l IH]; intros acc Hl Hnd; simpl.
  - by rewrite app_nil_r.
  - inversion_clear Hl as [|?? Ha Hl']. rewrite Ha.
    rewrite fmap_app in Hnd. simpl in Hnd.
    apply NoDup_app in Hnd as (Hacc & Hdisj & Hal).
    rewrite attr_set_fresh.
    + destruct a as [n v]. simpl. rewrite IH; [by rewrite <- app_assoc|done|].
      rewrite <- app_assoc. simpl. rewrite fmap_app. simpl.
      apply NoDup_app. done.
    + intros Hin. apply (Hdisj _ Hin). apply list_elem_of_here.
Qed.

Lemma copied_verbatim l : verbatim_names l -> copied l = l.
Proof.
  intros (_ & Hlow & Hnd). unfold copied.
  by rewrite fold_attr_set_verbatim.
Qed.

(** ** What a call that returns an element has done *)

Lemma after_value_selector s rest s' :
  after_value s rest = Parsed s' -> s' = s.
Proof.
  induction rest as [|c rest IH]; simpl; [congruence|].
  destruct (_ || _); [done|]. destruct (Ascii.eqb c "]").
  - destruct rest; congruence.
  - by destruct (may_begin_modifier c).
Qed.

Lemma parse_selector_shape text s :
  parse_selector text = Parsed s ->
  sel_type s = "input" /\ sel_attribute s = "name".
Proof.
  unfold parse_selector. destruct (strip_prefix _ _); [|done].
  destruct (consume_string _) as [v r|v| |]; try done.
  by intros ->%after_value_selector.
Qed.

Lemma matches_localName s n :
  matches s n = true -> localName n = Some (sel_type s).
Proof.
  destruct n as [t a ks|d|d]; simpl; [|done..].
  intros [Ht _]%andb_true_iff. apply bool_decide_eq_true in Ht. by subst.
Qed.

Lemma success_inv f opts w select w' :
  replaceInputWithSelect f opts w = (Normal (Some select), w') ->
  exists s p src,
    parse_selector (selector_text f) = Parsed s /\
    first_match (matches s) (document w) p src /\
    valid_names (attributes src) = true /\
    select = Elem "select" (copied (attributes src)) (choice <$> opts) /\
    w' = Page (replace_at (document w) p select) (console w).
Proof.
  rewrite replaceInputWithSelect_outcome. unfold outcome.
  destruct (parse_selector _) as [s| |]; [|done..].
  destruct (first_in_document _ _) as [p|] eqn:Hp; [|done].
  apply first_in_document_Some in Hp as [src Hsrc].
  pose proof Hsrc as (Hat & _). rewrite Hat. simpl.
  destruct (valid_names _) eqn:Hv; [|done].
  intros [= <- <-]. by exists s, p, src.
Qed.

Lemma found_outcome f opts w p src :
  plain_name f = true ->
  first_match (input_named f) (document w) p src ->
  replaceInputWithSelect f opts w
  = if valid_names (attributes src)
    then
      let select :=
        Elem "select" (copied (attributes src)) (choice <$> opts) in
      (Normal (Some select),
       Page (replace_at (document w) p select) (console w))
    else (Throw InvalidCharacterError, w).
Proof.
  intros Hf Hsrc. rewrite replaceInputWithSelect_outcome. unfold outcome.
  rewrite (parse_selector_plain _ Hf).
  pose proof (first_match_found _ _ _ _ Hsrc) as Hfound.
  unfold input_named in Hfound. rewrite Hfound.
  destruct Hsrc as (-> & _). done.
Qed.

Lemma not_found_outcome f opts w :
  plain_name f = true ->
  (forall q n, node_at (document w) q = Some n -> input_named f n = false) ->
  replaceInputWithSelect f opts w
  = (Normal None,
     Page (document w) (console w ++ [(Warn, not_found_message f)])).
Proof.
  intros Hf Hnone. rewrite replaceInputWithSelect_outcome. unfold outcome.
  rewrite (parse_selector_plain _ Hf).
  destruct (first_in_document _ _) as [p|] eqn:Hp; [|done].
  apply first_in_document_Some in Hp as (src & Hat & Hm & _).
  unfold input_named in Hnone. rewrite (Hnone _ _ Hat) in Hm. done.
Qed.

Lemma input_named_named f n : input_named f n = true -> named f n = true.
Proof.
  destruct n as [t a ks|d|d]; [|done..]. unfold input_named, named. simpl.
  by intros [_ ?]%andb_true_iff.
Qed.

Lemma no_named_no_input f doc :
  (forall q n, node_at doc q = Some n -> named f n = false) ->
  forall q n, node_at doc q = Some n -> input_named f n = false.
Proof.
  intros H q n Hq. destruct (input_named f n) eqn:Hn; [|done].
  apply input_named_named in Hn. by rewrite (H _ _ Hq) in Hn.
Qed.

Lemma absent_outcome f opts w :
  plain_name f = true ->
  (forall q n, node_at (document w) q = Some n -> named f n = false) ->
  replaceInputWithSelect f opts w
  = (Normal None,
     Page (document w) (console w ++ [(Warn, not_found_message f)])).
Proof.
  intros Hf Hnone. apply not_found_outcome; [done|].
  by apply no_named_no_input.
Qed.

(** A search that computes settles [first_match]. *)
Lemma first_match_by_search m doc p n :
  first_in_document m doc = Some p -> node_at doc p = Some n ->
  first_match m doc p n.
Proof.
  intros (n' & Hn')%first_in_document_Some Hn.
  replace n with n'; [done|]. destruct Hn' as (? & _). congruence.
Qed.

Lemma append_empty_r s : s +:+ EmptyString = s.
Proof.
  induction s as [|c s IH]; [done|].
  change (String c (s +:+ EmptyString) = String c s). by rewrite IH.
Qed.

Lemma choice_text l v :
  textContent (choice {| label := JSString l; value := v |}) = l.
Proof.
  unfold choice. simpl. case_bool_decide as Hl; simpl; [done|].
  apply append_empty_r.
Qed.

(** ** The scenario of the specification *)

Example scenario_small_large :
  replaceInputWithSelect "size" small_large form_page
  = (Normal
       (Some
          (Elem "select"
             [Attr "name" "size"; Attr "id" "x"; Attr "class" "y"]
             [Elem "option" [Attr "value" "s"] [Text "Small"];
              Elem "option" [Attr "value" "l"] [Text "Large"]])),
     Page
       [Elem "html" []
          [Elem "body" []
             [Elem "form" []
                [Elem "label" [] [Text "Size"];
                 Elem "select"
                   [Attr "name" "size"; Attr "id" "x"; Attr "class" "y"]
                   [Elem "option" [Attr "value" "s"] [Text "Small"];
                    Elem "option" [Attr "value" "l"] [Text "Large"]];
                 Elem "button" [] [Text "Send"]]]]]
       []).
Proof. reflexivity. Qed.

Example scenario_absent_field :
  replaceInputWithSelect "colour" small_large form_page
  = (Normal None,
     Page (document form_page) [(Warn, not_found_message "colour")]).
Proof. reflexivity. Qed.

(** ** The claims *)

(** C1, as amended.  For a plain field name [f] (no double quote,
    backslash, line break or U+0000) and a document whose first input
    element named [f] is [src], if the attribute names of [src] are valid,
    in lower case and pairwise distinct, the call returns a select element
    whose attribute list is the attribute list of [src]: the same names
    and values, as many, in the same order. *)
Theorem attributes_copied f opts w p src :
  plain_name f = true ->
  first_match (input_named f) (document w) p src ->
  verbatim_names (attributes src) ->
  exists select w',
    replaceInputWithSelect f opts w = (Normal (Some select), w') /\
    localName select = Some "select" /\
    attributes select = attributes src.
Proof.
  intros Hf Hsrc Hverb. rewrite (found_outcome _ _ _ _ _ Hf Hsrc).
  pose proof Hverb as (-> & _). eexists _, _. split; [done|].
  split; [done|]. simpl. by apply copied_verbatim.
Qed.

Lemma size_input_first :
  first_match (input_named "size") (document form_page) size_position
    size_input.
Proof. by apply first_match_by_search. Qed.

Lemma size_input_verbatim : verbatim_names (attributes size_input).
Proof.
  split; [done|]. split.
  - by repeat constructor.
  - apply (bool_decide_unpack _). by vm_compute.
Qed.

Lemma attributes_copied_witness :
  exists select w',
    replaceInputWithSelect "size" small_large form_page
    = (Normal (Some select), w') /\
    localName select = Some "select" /\
    attributes select = attributes size_input.
Proof.
  apply (attributes_copied "size" small_large form_page size_position
           size_input).
  - reflexivity.
  - exact size_input_first.
  - exact size_input_verbatim.
Defined.

(** C1 as stated fails.  In three documents an element is named size, and
    the call produces no select with that element's attributes: a
    textarea is not looked up at all; an attribute named viewBox arrives
    as viewbox; and a field name that is a double quote, carried by an
    input, makes the lookup throw. *)
Lemma attributes_not_always_copied :
  (node_at (document textarea_page) [0; 0; 0] = Some textarea_size /\
   named "size" textarea_size = true /\
   fst (replaceInputWithSelect "size" small_large textarea_page)
   = Normal None)
  /\
  (first_match (named "size") (document viewBox_page) [0; 0; 0; 0]
     viewBox_input /\
   exists select w',
     replaceInputWithSelect "size" small_large viewBox_page
     = (Normal (Some select), w') /\
     attributes select
     = [Attr "name" "size"; Attr "viewbox" "0 0 1 1"] /\
     attributes select <> attributes viewBox_input)
  /\
  (node_at (document quote_page) [0; 0; 0] = Some quote_input /\
   named quote_name quote_input = true /\
   replaceInputWithSelect quote_name small_large quote_page
   = (Throw SyntaxError, quote_page)).
Proof.
  split; [by repeat split|]. split; [|by repeat split].
  split; [by apply first_match_by_search|].
  eexists _, _. split; [reflexivity|]. by split.
Qed.

(** C2.  The select that a successful call returns has as many children
    as there are options, all of them option elements; the child at index
    [i] has as its text the label of the option at index [i] and as its
    value attribute that option's value: the order of the options is kept
    and nothing is merged or dropped. *)
Theorem choices_mirror_options f opts w select w' :
  replaceInputWithSelect f opts w = (Normal (Some select), w') ->
  length (childNodes select) = length opts /\
  Forall (fun c => localName c = Some "option") (childNodes select) /\
  forall i l v,
    opts !! i = Some {| label := JSString l; value := JSString v |} ->
    exists c,
      childNodes select !! i = Some c /\
      localName c = Some "option" /\
      textContent c = l /\
      getAttribute c "value" = Some v.
Proof.
  intros (s & p & src & _ & _ & _ & -> & _)%success_inv. simpl.
  split; [apply length_fmap|]. split; [by apply Forall_fmap, Forall_true|].
  intros i l v Hi. eexists. rewrite list_lookup_fmap, Hi. simpl.
  split; [done|]. split; [done|]. split; [apply choice_text|done].
Qed.

Lemma choices_mirror_options_witness :
  exists select w',
    replaceInputWithSelect "size" small_large form_page
    = (Normal (Some select), w') /\
    length (childNodes select) = length small_large /\
    Forall (fun c => localName c = Some "option") (childNodes select) /\
    forall i l v,
      small_large !! i
      = Some {| label := JSString l; value := JSString v |} ->
      exists c,
        childNodes select !! i = Some c /\
        localName c = Some "option" /\
        textContent c = l /\
        getAttribute c "value" = Some v.
Proof.
  eexists _, _. split; [reflexivity|].
  eapply (choices_mirror_options "size" small_large form_page).
  reflexivity.
Defined.

(** X1, the not-found path.  For a plain field name [f] and a document in
    which no element is named [f], the call returns undefined, leaves the
    document as it is, and adds one message to the console, a warning that
    reads Input with name, the field name between double quotes, not
    found. *)
Theorem not_found_warns_once f opts w :
  plain_name f = true ->
  (forall q n, node_at (document w) q = Some n -> named f n = false) ->
  replaceInputWithSelect f opts w
  = (Normal None,
     Page (document w) (console w ++ [(Warn, not_found_message f)])).
Proof. apply absent_outcome. Qed.

Lemma not_found_warns_once_witness :
  replaceInputWithSelect "colour" small_large form_page
  = (Normal None,
     Page (document form_page)
       (console form_page ++ [(Warn, not_found_message "colour")])).
Proof.
  apply (not_found_warns_once "colour" small_large form_page).
  - reflexivity.
  - apply first_in_document_None. reflexivity.
Defined.

(** C3, at a field name that the lookup cannot read.  No element of the
    form is named by the double quote, yet the call with that field name
    does not report that the field was not found: it throws SyntaxError
    from the lookup, and the console stays empty. *)
Lemma quote_name_is_not_reported :
  (forall q n, node_at (document form_page) q = Some n ->
               named quote_name n = false) /\
  replaceInputWithSelect quote_name small_large form_page
  = (Throw SyntaxError, form_page).
Proof. split; [by apply first_in_document_None|done]. Qed.

(** X2, calls that do not throw.  For a plain field name and any options,
    when the attribute names of the first input element of that name (if
    there is one) are valid, the call does not throw: either it reports
    that the field was not found, or it returns the select and the select
    stands in the document. *)
Theorem plain_names_never_throw f opts w :
  plain_name f = true ->
  (forall p src, first_match (input_named f) (document w) p src ->
                 valid_names (attributes src) = true) ->
  replaceInputWithSelect f opts w
  = (Normal None,
     Page (document w) (console w ++ [(Warn, not_found_message f)]))
  \/
  exists p src select,
    first_match (input_named f) (document w) p src /\
    replaceInputWithSelect f opts w
    = (Normal (Some select),
       Page (replace_at (document w) p select) (console w)) /\
    node_at (replace_at (document w) p select) p = Some select.
Proof.
  intros Hf Hvalid.
  destruct (first_in_document (input_named f) (document w)) as [p|] eqn:Hp.
  - right. apply first_in_document_Some in Hp as [src Hsrc].
    exists p, src. eexists. split; [done|].
    rewrite (found_outcome _ _ _ _ _ Hf Hsrc), (Hvalid _ _ Hsrc).
    split; [done|]. destruct Hsrc as (Hat & _).
    by apply (node_at_replace_at _ _ src).
  - left. apply not_found_outcome; [done|].
    by apply first_in_document_None.
Qed.

Lemma plain_names_never_throw_witness :
  replaceInputWithSelect "size" small_large form_page
  = (Normal None,
     Page (document form_page)
       (console form_page ++ [(Warn, not_found_message "size")]))
  \/
  exists p src select,
    first_match (input_named "size") (document form_page) p src /\
    replaceInputWithSelect "size" small_large form_page
    = (Normal (Some select),
       Page (replace_at (document form_page) p select) (console form_page)) /\
    node_at (replace_at (document form_page) p select) p = Some select.
Proof.
  apply (plain_names_never_throw "size" small_large form_page).
  - reflexivity.
  - intros p src H.
    destruct (first_match_unique _ _ _ _ _ _ H size_input_first) as [_ ->].
    reflexivity.
Defined.

(** C4, at two inputs on which the call throws.  It throws SyntaxError
    for the field name that is a double quote, and InvalidCharacterError
    when the input has an attribute whose name begins with an equals
    sign; in both cases the page is left as it was. *)
Lemma replace_can_throw :
  replaceInputWithSelect quote_name small_large form_page
  = (Throw SyntaxError, form_page) /\
  replaceInputWithSelect "size" small_large stray_equals_page
  = (Throw InvalidCharacterError, stray_equals_page).
Proof. by split. Qed.

(** C5, as amended.  For a plain field name the lookup of line 8 returns
    the first input element, in tree order, whose name attribute is the
    field name: elements of other kinds are passed over, and of several
    inputs of that name the first is taken. *)
Theorem lookup_selects_first_input f w p src :
  plain_name f = true ->
  first_match (input_named f) (document w) p src ->
  querySelector (selector_text f) w = (Normal (Some p), w).
Proof.
  intros Hf Hsrc. unfold querySelector.
  rewrite (parse_selector_plain _ Hf).
  pose proof (first_match_found _ _ _ _ Hsrc) as Hfound.
  unfold input_named in Hfound. by rewrite Hfound.
Qed.

Lemma lookup_selects_first_input_witness :
  first_match (input_named "size") (document two_inputs_page) [0; 0; 0]
    size_input /\
  node_at (document two_inputs_page) [0; 0; 1] = Some size_input_b /\
  input_named "size" size_input_b = true /\
  querySelector (selector_text "size") two_inputs_page
  = (Normal (Some [0; 0; 0]), two_inputs_page).
Proof.
  assert (first_match (input_named "size") (document two_inputs_page)
            [0; 0; 0] size_input) as H
    by (apply first_match_by_search; reflexivity).
  split; [exact H|]. split; [reflexivity|]. split; [reflexivity|].
  apply (lookup_selects_first_input "size" two_inputs_page [0; 0; 0]
           size_input); [reflexivity|exact H].
Defined.

(** C5 as stated fails.  The first element named size is a textarea; the
    lookup passes over it and returns the input after it. *)
Lemma lookup_passes_over_other_kinds :
  first_match (named "size") (document textarea_then_input_page) [0; 0; 0]
    textarea_size /\
  querySelector (selector_text "size") textarea_then_input_page
  = (Normal (Some [0; 0; 1]), textarea_then_input_page).
Proof. split; [by apply first_match_by_search|done]. Qed.

(** C6.  After a call that returns the select, the select is the child of
    the source's parent at the source's index: the parent's child list is
    the former one with that single entry exchanged, so the siblings
    before and after keep their places; the source, an input, is no longer
    at its position; and the element returned is the one in the tree. *)
Theorem target_takes_source_position f opts w select w' :
  replaceInputWithSelect f opts w = (Normal (Some select), w') ->
  exists parent i src sibs,
    querySelector (selector_text f) w = (Normal (Some (parent ++ [i])), w) /\
    node_at (document w) (parent ++ [i]) = Some src /\
    children_at (document w) parent = Some sibs /\
    sibs !! i = Some src /\
    children_at (document w') parent = Some (<[i := select]> sibs) /\
    node_at (document w') (parent ++ [i]) = Some select /\
    localName src = Some "input" /\
    localName select = Some "select".
Proof.
  intros (s & p & src & Hs & Hsrc & _ & Hsel & ->)%success_inv.
  pose proof Hsrc as (Hat & Hm & _).
  assert (p <> []) as Hp by (intros ->; done).
  destruct (exists_last Hp) as (parent & i & ->).
  destruct (children_at_replace_at _ _ _ _ select Hat)
    as (sibs & Hsibs & Hi & Hsibs').
  exists parent, i, src, sibs. simpl.
  split.
  { unfold querySelector. rewrite Hs.
    by rewrite (first_match_found _ _ _ _ Hsrc). }
  split; [done|]. split; [done|]. split; [done|]. split; [done|].
  split; [by apply (node_at_replace_at _ _ src)|].
  split; [|by subst].
  rewrite (matches_localName _ _ Hm).
  by destruct (parse_selector_shape _ _ Hs) as [-> _].
Qed.

Lemma target_takes_source_position_witness :
  exists select w' parent i src sibs,
    replaceInputWithSelect "size" small_large form_page
    = (Normal (Some select), w') /\
    querySelector (selector_text "size") form_page
    = (Normal (Some (parent ++ [i])), form_page) /\
    node_at (document form_page) (parent ++ [i]) = Some src /\
    children_at (document form_page) parent = Some sibs /\
    sibs !! i = Some src /\
    children_at (document w') parent = Some (<[i := select]> sibs) /\
    node_at (document w') (parent ++ [i]) = Some select /\
    localName src = Some "input" /\
    localName select = Some "select".
Proof.
  eexists _, _.
  destruct (target_takes_source_position "size" small_large form_page _ _
              eq_refl) as (parent & i & src & sibs & H).
  exists parent, i, src, sibs. split; [reflexivity|exact H].
Defined.

(** The elements above an exchanged position keep their name, their
    attributes and the number of their children. *)
Lemma node_at_replace_at_above doc p q n new :
  q `prefix_of` p -> q <> p -> node_at doc q = Some n ->
  exists n',
    node_at (replace_at doc p new) q = Some n' /\
    localName n' = localName n /\
    attributes n' = attributes n /\
    length (childNodes n') = length (childNodes n).
Proof.
  intros [r ->] Hne Hq.
  assert (q <> []) as Hq0 by (intros ->; done).
  assert (q ++ r <> []) as Hqr by (by destruct q).
  destruct r as [|i r]; [by rewrite app_nil_r in Hne|].
  rewrite node_at_root in Hq by done.
  rewrite node_at_root, <- root_replace by done.
  rewrite (sub_at_replace_prefix new q (i :: r) _ _ Hq).
  eexists. split; [done|].
  destruct (sub_replace_shell n i r new) as [-> ->].
  split; [done|]. split; [done|].
  by rewrite sub_replace_cons, length_alter.
Qed.

(** C7.  A call that returns the select leaves the console as it was and
    changes the document by one exchange, at the position that the lookup
    of line 8 returned.  There an input stood, and there the returned
    select stands now, with its options below it; the document node has
    as many children as before; every node that is neither above nor
    below that position is what it was; and the elements above it keep
    their name, their attributes and the number of their children. *)
Theorem only_the_source_is_replaced f opts w select w' :
  replaceInputWithSelect f opts w = (Normal (Some select), w') ->
  console w' = console w /\
  exists p src,
    querySelector (selector_text f) w = (Normal (Some p), w) /\
    node_at (document w) p = Some src /\
    localName src = Some "input" /\
    localName select = Some "select" /\
    node_at (document w') p = Some select /\
    (forall r, node_at (document w') (p ++ r) = sub_at select r) /\
    length (document w') = length (document w) /\
    document w' = replace_at (document w) p select /\
    (forall q, ~ p `prefix_of` q -> ~ q `prefix_of` p ->
               node_at (document w') q = node_at (document w) q) /\
    (forall q n, q `prefix_of` p -> q <> p ->
                 node_at (document w) q = Some n ->
                 exists n',
                   node_at (document w') q = Some n' /\
                   localName n' = localName n /\
                   attributes n' = attributes n /\
                   length (childNodes n') = length (childNodes n)).
Proof.
  intros (s & p & src & Hs & Hsrc & _ & Hsel & ->)%success_inv.
  pose proof Hsrc as (Hat & Hm & _).
  assert (p <> []) as Hp by (intros ->; done).
  pose proof (node_at_replace_at _ _ _ select Hat) as Hnew.
  split; [done|]. exists p, src. simpl.
  split.
  { unfold querySelector. rewrite Hs.
    by rewrite (first_match_found _ _ _ _ Hsrc). }
  split; [done|]. split.
  { rewrite (matches_localName _ _ Hm).
    by destruct (parse_selector_shape _ _ Hs) as [-> _]. }
  split; [by subst|]. split; [done|]. split.
  { intros r. by rewrite node_at_app, Hnew. }
  split; [apply length_replace_at|]. split; [done|]. split.
  - intros q. apply node_at_replace_at_apart.
  - intros q n. apply node_at_replace_at_above.
Qed.

Lemma only_the_source_is_replaced_witness :
  exists select w',
    replaceInputWithSelect "size" small_large form_page
    = (Normal (Some select), w') /\
    console w' = console form_page /\
    exists p src,
      querySelector (selector_text "size") form_page
      = (Normal (Some p), form_page) /\
      node_at (document form_page) p = Some src /\
      localName src = Some "input" /\
      localName select = Some "select" /\
      node_at (document w') p = Some select /\
      (forall r, node_at (document w') (p ++ r) = sub_at select r) /\
      length (document w') = length (document form_page) /\
      document w' = replace_at (document form_page) p select /\
      (forall q, ~ p `prefix_of` q -> ~ q `prefix_of` p ->
                 node_at (document w') q = node_at (document form_page) q) /\
      (forall q n, q `prefix_of` p -> q <> p ->
                   node_at (document form_page) q = Some n ->
                   exists n',
                     node_at (document w') q = Some n' /\
                     localName n' = localName n /\
                     attributes n' = attributes n /\
                     length (childNodes n') = length (childNodes n)).
Proof.
  eexists _, _. split; [reflexivity|].
  eapply (only_the_source_is_replaced "size" small_large form_page).
  reflexivity.
Defined.

(** C8, as amended.  For a plain field name [f] and a document whose
    first input element named [f] is [src], with attribute names that are
    valid, in lower case and pairwise distinct, the call with no options
    returns a select element without children whose attribute list is the
    attribute list of [src]. *)
Theorem empty_options_empty_select f w p src :
  plain_name f = true ->
  first_match (input_named f) (document w) p src ->
  verbatim_names (attributes src) ->
  exists select w',
    replaceInputWithSelect f [] w = (Normal (Some select), w') /\
    localName select = Some "select" /\
    childNodes select = [] /\
    attributes select = attributes src.
Proof.
  intros Hf Hsrc Hverb. rewrite (found_outcome _ _ _ _ _ Hf Hsrc).
  pose proof Hverb as (-> & _). eexists _, _. split; [done|].
  split; [done|]. split; [done|]. simpl. by apply copied_verbatim.
Qed.

Lemma empty_options_empty_select_witness :
  exists select w',
    replaceInputWithSelect "size" [] form_page = (Normal (Some select), w') /\
    localName select = Some "select" /\
    childNodes select = [] /\
    attributes select = attributes size_input.
Proof.
  apply (empty_options_empty_select "size" form_page size_position
           size_input).
  - reflexivity.
  - exact size_input_first.
  - exact size_input_verbatim.
Defined.

(** C8 as stated fails.  With no options the call ends in an error when
    the input has an attribute whose name begins with an equals sign,
    and finds nothing to replace when the element named size is a
    textarea. *)
Lemma empty_options_can_fail :
  (first_match (named "size") (document stray_equals_page) [0; 0; 0]
     stray_equals_input /\
   replaceInputWithSelect "size" [] stray_equals_page
   = (Throw InvalidCharacterError, stray_equals_page))
  /\
  (first_match (named "size") (document textarea_page) [0; 0; 0]
     textarea_size /\
   fst (replaceInputWithSelect "size" [] textarea_page) = Normal None).
Proof.
  split; (split; [by apply first_match_by_search|done]).
Qed.

(** X3, absence twice.  For a plain field name [f] and a document in which
    no element is named [f], two calls in a row both return undefined and
    the document after each is the document before the first. *)
Theorem absence_is_idempotent f opts w :
  plain_name f = true ->
  (forall q n, node_at (document w) q = Some n -> named f n = false) ->
  exists w1 w2,
    replaceInputWithSelect f opts w = (Normal None, w1) /\
    replaceInputWithSelect f opts w1 = (Normal None, w2) /\
    document w1 = document w /\
    document w2 = document w.
Proof.
  intros Hf Hnone. eexists _, _.
  split; [by apply absent_outcome|].
  split; [by apply absent_outcome|]. done.
Qed.

Lemma absence_is_idempotent_witness :
  exists w1 w2,
    replaceInputWithSelect "colour" small_large form_page
    = (Normal None, w1) /\
    replaceInputWithSelect "colour" small_large w1 = (Normal None, w2) /\
    document w1 = document form_page /\
    document w2 = document form_page.
Proof.
  apply (absence_is_idempotent "colour" small_large form_page).
  - reflexivity.
  - apply first_in_document_None. reflexivity.
Defined.

(** C9, at a field name that the lookup cannot read.  No element of the
    form is named by the double quote; each of two calls in a row with
    that field name throws SyntaxError, so neither gives the not-found
    result.  The page stays as it was. *)
Lemma quote_name_throws_twice :
  (forall q n, node_at (document form_page) q = Some n ->
               named quote_name n = false) /\
  exists w1 w2,
    replaceInputWithSelect quote_name small_large form_page
    = (Throw SyntaxError, w1) /\
    replaceInputWithSelect quote_name small_large w1
    = (Throw SyntaxError, w2) /\
    w1 = form_page /\ w2 = form_page.
Proof. split; [by apply first_in_document_None|]. by eexists _, _. Qed.

(** C10, as amended.  Options are not checked: a call that returns the
    select for no options returns a select for every list of options.  In
    it the choice of an option without value has the string undefined as
    its value attribute, and the choice of an option without label has no
    children and empty text. *)
Theorem missing_fields_propagate f w opts :
  (exists select0 w0,
     replaceInputWithSelect f [] w = (Normal (Some select0), w0)) ->
  exists select w',
    replaceInputWithSelect f opts w = (Normal (Some select), w') /\
    forall i o, opts !! i = Some o ->
      exists c,
        childNodes select !! i = Some c /\
        localName c = Some "option" /\
        (value o = JSUndefined -> getAttribute c "value" = Some "undefined") /\
        (label o = JSUndefined ->
         childNodes c = [] /\ textContent c = EmptyString).
Proof.
  intros (select0 & w0 & H0). revert H0.
  rewrite !replaceInputWithSelect_outcome. unfold outcome.
  destruct (parse_selector _) as [s| |]; [|done..].
  destruct (first_in_document _ _) as [p|]; [|done].
  destruct (valid_names _); [|done]. intros _.
  eexists _, _. split; [done|]. intros i o Hi. simpl.
  rewrite list_lookup_fmap, Hi. simpl. eexists. split; [done|].
  split; [done|]. split.
  - intros Hv. unfold choice, getAttribute. simpl. by rewrite Hv.
  - intros Hl. unfold choice. by rewrite Hl.
Qed.

Lemma missing_fields_propagate_witness :
  exists select w',
    replaceInputWithSelect "size" [no_value; no_label] form_page
    = (Normal (Some select), w') /\
    forall i o, [no_value; no_label] !! i = Some o ->
      exists c,
        childNodes select !! i = Some c /\
        localName c = Some "option" /\
        (value o = JSUndefined -> getAttribute c "value" = Some "undefined") /\
        (label o = JSUndefined ->
         childNodes c = [] /\ textContent c = EmptyString).
Proof.
  apply (missing_fields_propagate "size" form_page [no_value; no_label]).
  eexists _, _. reflexivity.
Defined.

(** C10 as stated fails.  For an option without value the choice does
    not carry the empty string: its value attribute is the string
    undefined. *)
Lemma missing_value_is_not_empty :
  value no_value = JSUndefined /\
  exists select w' c,
    replaceInputWithSelect "size" [no_value] form_page
    = (Normal (Some select), w') /\
    childNodes select !! 0 = Some c /\
    getAttribute c "value" = Some "undefined" /\
    getAttribute c "value" <> Some EmptyString.
Proof. split; [done|]. eexists _, _, _. by repeat split. Qed.

(** * Further properties of the function *)

(** ** Positions after an exchange *)

(** A node of the tree after an exchange is a node of the new subtree, or
    stands where a node of the same name and attributes stood before. *)
Lemma node_at_replace_at_inv doc p src new q n' :
  node_at doc p = Some src ->
  node_at (replace_at doc p new) q = Some n' ->
  (exists r, q = p ++ r /\ sub_at new r = Some n') \/
  (~ p `prefix_of` q /\
   exists n, node_at doc q = Some n /\
             localName n' = localName n /\ attributes n' = attributes n).
Proof.
  intros Hp Hq. assert (p <> []) as Hp0 by (intros ->; done).
  assert (q <> []) as Hq0 by (intros ->; done).
  destruct (decide (p `prefix_of` q)) as [[r ->]|Hpq].
  - left. exists r. split; [done|].
    rewrite node_at_app, (node_at_replace_at _ _ _ new Hp) in Hq by done.
    done.
  - right. split; [done|].
    destruct (decide (q `prefix_of` p)) as [Hqp|Hqp].
    + assert (q <> p) as Hne by (intros ->; by apply Hpq).
      destruct Hqp as [r ->]. rewrite node_at_app in Hp by done.
      destruct (node_at doc q) as [n|] eqn:Hn; [|done].
      destruct (node_at_replace_at_above doc (q ++ r) q n new)
        as (n'' & Hn'' & ? & ? & _); [by exists r|done|done|].
      exists n. replace n' with n'' by congruence. done.
    + rewrite node_at_replace_at_apart in Hq by done. by exists n'.
Qed.

Lemma matches_shell s n n' :
  localName n' = localName n -> attributes n' = attributes n ->
  matches s n' = matches s n.
Proof.
  destruct n as [t a ks|d|d], n' as [t' a' ks'|d'|d']; simpl; try done.
  intros [= ->] ->. done.
Qed.

(** Below the select that the function builds there is no input element:
    its children are option elements, and theirs are text. *)
Lemma built_select_holds_no_input a opts r n s :
  sub_at (Elem "select" a (choice <$> opts)) r = Some n ->
  sel_type s = "input" -> matches s n = false.
Proof.
  intros Hr Hs. destruct r as [|i r].
  - injection Hr as <-. simpl. rewrite Hs. done.
  - rewrite sub_at_cons in Hr. simpl in Hr. rewrite list_lookup_fmap in Hr.
    destruct (opts !! i) as [o|]; [simpl in Hr|done].
    destruct r as [|j r].
    + injection Hr as <-. simpl. rewrite Hs. done.
    + rewrite sub_at_cons in Hr. unfold choice in Hr. simpl in Hr.
      case_bool_decide; [done|]. destruct j as [|j]; [|done]. simpl in Hr.
      destruct r; [|done]. by injection Hr as <-.
Qed.

(** The input elements of a name after a successful exchange are input
    elements of that name before it, away from the exchanged position. *)
Lemma inputs_after_exchange g doc p src opts q n' :
  node_at doc p = Some src ->
  node_at
    (replace_at doc p
       (Elem "select" (copied (attributes src)) (choice <$> opts))) q
  = Some n' ->
  input_named g n' = true ->
  ~ p `prefix_of` q /\
  exists n, node_at doc q = Some n /\ input_named g n = true.
Proof.
  intros Hp Hq Hm.
  destruct (node_at_replace_at_inv _ _ _ _ _ _ Hp Hq)
    as [(r & -> & Hr)|(Hpq & n & Hn & Hl & Ha)].
  - unfold input_named in Hm.
    by rewrite (built_select_holds_no_input _ _ _ _ _ Hr) in Hm.
  - split; [done|]. exists n. split; [done|].
    unfold input_named in *. by rewrite <- (matches_shell _ _ _ Hl Ha).
Qed.

(** An input away from the exchanged position is still the first of its
    name. *)
Lemma first_match_survives g doc p src opts q other :
  node_at doc p = Some src ->
  first_match (input_named g) doc q other ->
  ~ p `prefix_of` q -> ~ q `prefix_of` p ->
  first_match (input_named g)
    (replace_at doc p
       (Elem "select" (copied (attributes src)) (choice <$> opts)))
    q other.
Proof.
  intros Hp (Hq & Hm & Hfirst) Hpq Hqp. split; [|split; [done|]].
  - by rewrite node_at_replace_at_apart.
  - intros q2 n2 Hq2 Hm2.
    destruct (inputs_after_exchange _ _ _ _ _ _ _ Hp Hq2 Hm2)
      as (_ & n & Hn & Hmn).
    by apply (Hfirst q2 n).
Qed.

Lemma sub_replace_commute p q a b n :
  ~ p `prefix_of` q -> ~ q `prefix_of` p ->
  sub_replace (sub_replace n p a) q b = sub_replace (sub_replace n q b) p a.
Proof.
  revert q n. induction p as [|i p IH]; intros [|j q] n Hpq Hqp.
  - destruct Hpq. done.
  - destruct Hpq. apply prefix_nil.
  - destruct Hqp. apply prefix_nil.
  - destruct n as [t at' ks|d|d]; [|done..].
    change (Elem t at' (replace_at (replace_at ks (i :: p) a) (j :: q) b)
            = Elem t at' (replace_at (replace_at ks (j :: q) b) (i :: p) a)).
    f_equal. rewrite !replace_at_cons.
    destruct (decide (i = j)) as [->|Hne].
    + rewrite !list_alter_alter_eq. apply list_alter_ext; [|done].
      intros k _. simpl. apply IH; intros H; [apply Hpq|apply Hqp];
        by apply prefix_cons.
    + by apply list_alter_alter_ne.
Qed.

Lemma replace_at_commute doc p q a b :
  ~ p `prefix_of` q -> ~ q `prefix_of` p ->
  replace_at (replace_at doc p a) q b = replace_at (replace_at doc q b) p a.
Proof.
  intros Hpq Hqp.
  assert (p <> []) as Hp by (intros ->; apply Hpq, prefix_nil).
  assert (q <> []) as Hq by (intros ->; apply Hqp, prefix_nil).
  rewrite (replace_at_root (replace_at doc p a) q b Hq).
  rewrite (replace_at_root (replace_at doc q b) p a Hp).
  rewrite <- (root_replace doc p a Hp), <- (root_replace doc q b Hq).
  by rewrite sub_replace_commute.
Qed.

(** ** Failure, repetition and several fields *)

Lemma valid_names_false l :
  valid_names l = false <->
  exists a, a ∈ l /\ valid_attribute_local_name (attr_name a) = false.
Proof.
  unfold valid_names. induction l as [|b l IH]; simpl.
  - split; [done|]. intros (a & Ha & _). by apply elem_of_nil in Ha.
  - rewrite andb_false_iff, IH. split.
    + intros [Hb|(a & Ha & Hv)].
      * exists b. split; [apply list_elem_of_here|done].
      * exists a. split; [by apply list_elem_of_further|done].
    + intros (a & [->|Ha]%elem_of_cons & Hv); [by left|].
      right. by exists a.
Qed.

(** X4.  Failure of a call with a plain field name and a sequence of
    option objects.  Such a call throws
    exactly when the first input element of that name has an attribute
    whose name setAttribute refuses; what it throws then is
    InvalidCharacterError, from the copy loop of lines 19 to 21, and the
    page, document and console, is exactly as before the call: the loop
    runs before line 32 touches the tree, so no half-built select is
    left behind. *)
Theorem plain_call_throws_on_refused_name f opts w :
  plain_name f = true ->
  (forall e w',
     replaceInputWithSelect f opts w = (Throw e, w') ->
     e = InvalidCharacterError /\ w' = w) /\
  ((exists e w', replaceInputWithSelect f opts w = (Throw e, w')) <->
   exists p src a,
     first_match (input_named f) (document w) p src /\
     a ∈ attributes src /\
     valid_attribute_local_name (attr_name a) = false).
Proof.
  intros Hf.
  destruct (first_in_document (input_named f) (document w)) as [p|] eqn:Hp.
  - apply first_in_document_Some in Hp as [src Hsrc].
    rewrite (found_outcome _ _ _ _ _ Hf Hsrc).
    destruct (valid_names (attributes src)) eqn:Hv.
    + split; [done|]. split; [by intros (e & w' & ?)|].
      intros (p' & src' & a & Hsrc' & Ha & Hbad).
      destruct (first_match_unique _ _ _ _ _ _ Hsrc' Hsrc) as [_ ->].
      assert (valid_names (attributes src) = false) as Hv'
        by (apply valid_names_false; eauto).
      congruence.
    + split; [by intros e w' [= <- <-]|]. split; [|by eauto].
      intros _. apply valid_names_false in Hv as (a & Ha & Hbad).
      by exists p, src, a.
  - rewrite (not_found_outcome _ _ _ Hf (first_in_document_None _ _ Hp)).
    split; [done|]. split; [by intros (e & w' & ?)|].
    intros (p' & src' & a & Hsrc' & _).
    apply first_match_found in Hsrc'. congruence.
Qed.

Lemma plain_call_throws_on_refused_name_witness :
  replaceInputWithSelect "size" small_large stray_equals_page
  = (Throw InvalidCharacterError, stray_equals_page) /\
  (forall e w',
     replaceInputWithSelect "size" small_large stray_equals_page
     = (Throw e, w') ->
     e = InvalidCharacterError /\ w' = stray_equals_page) /\
  ((exists e w',
      replaceInputWithSelect "size" small_large stray_equals_page
      = (Throw e, w')) <->
   exists p src a,
     first_match (input_named "size") (document stray_equals_page) p src /\
     a ∈ attributes src /\
     valid_attribute_local_name (attr_name a) = false).
Proof.
  split; [reflexivity|].
  apply (plain_call_throws_on_refused_name "size" small_large
           stray_equals_page).
  reflexivity.
Defined.

(** X5.  A field can be replaced once.  When the document has a single
    input element of a plain name, with attribute names that setAttribute
    accepts, the first call returns the select and a second call with the
    same name, whatever its options, finds no input any more: it returns
    undefined, writes the warning and leaves the document of the first
    call as it is. *)
Theorem second_call_reports_not_found f opts opts' w p src :
  plain_name f = true ->
  node_at (document w) p = Some src ->
  input_named f src = true ->
  (forall q n, node_at (document w) q = Some n ->
               input_named f n = true -> q = p) ->
  valid_names (attributes src) = true ->
  exists select w1,
    replaceInputWithSelect f opts w = (Normal (Some select), w1) /\
    replaceInputWithSelect f opts' w1
    = (Normal None,
       Page (document w1) (console w1 ++ [(Warn, not_found_message f)])).
Proof.
  intros Hf Hp Hm Hsole Hv.
  assert (first_match (input_named f) (document w) p src) as Hsrc.
  { split; [done|]. split; [done|]. intros q n Hq Hn. left. eauto. }
  rewrite (found_outcome _ opts _ _ _ Hf Hsrc), Hv. eexists _, _.
  split; [done|]. apply not_found_outcome; [done|]. simpl.
  intros q n' Hq. destruct (input_named f n') eqn:Hn'; [|done].
  destruct (inputs_after_exchange _ _ _ _ _ _ _ Hp Hq Hn')
    as (Hpq & n & Hn & Hmn).
  destruct Hpq. by rewrite (Hsole _ _ Hn Hmn).
Qed.

Lemma size_input_alone q n :
  node_at (document form_page) q = Some n ->
  input_named "size" n = true -> q = size_position.
Proof.
  intros Hq Hm.
  repeat
    (destruct q as [|[|[|[|?]]] q]; simpl in Hq;
     [try done; try (by injection Hq as <-)..]).
Qed.

Lemma second_call_reports_not_found_witness :
  exists select w1,
    replaceInputWithSelect "size" small_large form_page
    = (Normal (Some select), w1) /\
    replaceInputWithSelect "size" red_blue w1
    = (Normal None,
       Page (document w1)
         (console w1 ++ [(Warn, not_found_message "size")])).
Proof.
  apply (second_call_reports_not_found "size" small_large red_blue form_page
           size_position size_input).
  - reflexivity.
  - reflexivity.
  - reflexivity.
  - exact size_input_alone.
  - reflexivity.
Defined.

(** X6.  Replacing one field leaves the others where they are.  When the
    first input of a name [g] stands at a position that is neither above
    nor below the input replaced for [f], then after the call for [f] it
    is still the first input named [g], at the same position and
    unchanged, so a later call for [g] finds it. *)
Theorem other_field_stays_in_place f g opts w p src q other :
  plain_name f = true ->
  first_match (input_named f) (document w) p src ->
  valid_names (attributes src) = true ->
  first_match (input_named g) (document w) q other ->
  ~ p `prefix_of` q -> ~ q `prefix_of` p ->
  exists select w1,
    replaceInputWithSelect f opts w = (Normal (Some select), w1) /\
    first_match (input_named g) (document w1) q other.
Proof.
  intros Hf Hsrc Hv Hother Hpq Hqp.
  rewrite (found_outcome _ opts _ _ _ Hf Hsrc), Hv. eexists _, _.
  split; [done|]. simpl. destruct Hsrc as (Hp & _).
  by apply first_match_survives.
Qed.

Lemma two_fields_size :
  first_match (input_named "size") (document two_fields_page) [0; 0; 0; 0; 0]
    size_input.
Proof. by apply first_match_by_search. Qed.

Lemma two_fields_colour :
  first_match (input_named "colour") (document two_fields_page)
    [0; 0; 0; 1; 0] colour_input.
Proof. by apply first_match_by_search. Qed.

Lemma two_fields_apart :
  ~ [0; 0; 0; 0; 0] `prefix_of` [0; 0; 0; 1; 0] /\
  ~ [0; 0; 0; 1; 0] `prefix_of` [0; 0; 0; 0; 0].
Proof. split; apply (bool_decide_unpack _); by vm_compute. Qed.

Lemma other_field_stays_in_place_witness :
  exists select w1,
    replaceInputWithSelect "size" small_large two_fields_page
    = (Normal (Some select), w1) /\
    first_match (input_named "colour") (document w1) [0; 0; 0; 1; 0]
      colour_input.
Proof.
  apply (other_field_stays_in_place "size" "colour" small_large
           two_fields_page [0; 0; 0; 0; 0] size_input [0; 0; 0; 1; 0]
           colour_input).
  - reflexivity.
  - exact two_fields_size.
  - reflexivity.
  - exact two_fields_colour.
  - exact (proj1 two_fields_apart).
  - exact (proj2 two_fields_apart).
Defined.

(** X7.  Calls for two fields commute.  When the inputs found for two
    plain names stand at positions neither of which is above the other,
    and their attribute names are accepted, replacing the one and then
    the other gives the same two selects and the same page as replacing
    them in the opposite order. *)
Theorem replacements_commute f g optsf optsg w p srcf q srcg :
  plain_name f = true ->
  plain_name g = true ->
  first_match (input_named f) (document w) p srcf ->
  first_match (input_named g) (document w) q srcg ->
  valid_names (attributes srcf) = true ->
  valid_names (attributes srcg) = true ->
  ~ p `prefix_of` q -> ~ q `prefix_of` p ->
  exists sf sg w1 w2 w1' w2',
    replaceInputWithSelect f optsf w = (Normal (Some sf), w1) /\
    replaceInputWithSelect g optsg w1 = (Normal (Some sg), w2) /\
    replaceInputWithSelect g optsg w = (Normal (Some sg), w1') /\
    replaceInputWithSelect f optsf w1' = (Normal (Some sf), w2') /\
    w2 = w2'.
Proof.
  intros Hf Hg Hsf Hsg Hvf Hvg Hpq Hqp.
  pose proof Hsf as (Hp & _). pose proof Hsg as (Hq & _).
  pose proof (first_match_survives g _ _ _ optsf _ _ Hp Hsg Hpq Hqp) as Hsg'.
  pose proof (first_match_survives f _ _ _ optsg _ _ Hq Hsf Hqp Hpq) as Hsf'.
  rewrite (found_outcome _ optsf _ _ _ Hf Hsf), Hvf.
  rewrite (found_outcome _ optsg _ _ _ Hg Hsg), Hvg.
  eexists _, _, _, _, _, _. split; [done|].
  rewrite (found_outcome g optsg (Page _ _) q srcg Hg Hsg'), Hvg.
  split; [done|]. split; [done|].
  rewrite (found_outcome f optsf (Page _ _) p srcf Hf Hsf'), Hvf.
  split; [done|]. simpl. f_equal. by apply replace_at_commute.
Qed.

Lemma replacements_commute_witness :
  exists sf sg w1 w2 w1' w2',
    replaceInputWithSelect "size" small_large two_fields_page
    = (Normal (Some sf), w1) /\
    replaceInputWithSelect "colour" red_blue w1 = (Normal (Some sg), w2) /\
    replaceInputWithSelect "colour" red_blue two_fields_page
    = (Normal (Some sg), w1') /\
    replaceInputWithSelect "size" small_large w1' = (Normal (Some sf), w2') /\
    w2 = w2'.
Proof.
  apply (replacements_commute "size" "colour" small_large red_blue
           two_fields_page [0; 0; 0; 0; 0] size_input [0; 0; 0; 1; 0]
           colour_input).
  - reflexivity.
  - reflexivity.
  - exact two_fields_size.
  - exact two_fields_colour.
  - reflexivity.
  - reflexivity.
  - exact (proj1 two_fields_apart).
  - exact (proj2 two_fields_apart).
Defined.

(** * The message listener *)

Lemma fieldName_plain : plain_name "fieldName" = true.
Proof. reflexivity. Qed.

Lemma on_message_ready event w :
  is_form_ready (data event) = true ->
  on_message event w
  = match replaceInputWithSelect "fieldName" myOptions w with
    | (Normal _, w') => (Returned, w')
    | (Throw e, w') => (Uncaught (DOMError e), w')
    | (Undetermined, w') => (Unread, w')
    end.
Proof.
  unfold on_message. destruct (data event) as [v|t n]; [done|]. simpl.
  intros [-> ->]%andb_true_iff. done.
Qed.

Lemma on_message_foreign event w :
  is_form_ready (data event) = false ->
  on_message event w
  = (if is_nullish (data event) then Uncaught TypeError else Returned, w).
Proof.
  unfold on_message. destruct (data event) as [[| |b|t]|t n]; simpl; try done.
  intros Hr. destruct (strict_equals_string t _); [|done].
  simpl in Hr. by rewrite Hr.
Qed.

(** X8.  A message that is not the form-ready message of HubSpot (data
    that is no object, or an object whose type is not the string
    hsFormCallback or whose eventName is not the string onFormReady)
    never changes the page.  The listener returns quietly on it, except
    on data that is null or undefined, where reading the property of
    line 39 throws TypeError. *)
Theorem foreign_messages_change_nothing event w :
  is_form_ready (data event) = false ->
  on_message event w
  = (if is_nullish (data event) then Uncaught TypeError else Returned, w).
Proof. apply on_message_foreign. Qed.

Lemma foreign_messages_change_nothing_witness :
  on_message submit_event hubspot_page = (Returned, hubspot_page) /\
  on_message null_event hubspot_page = (Uncaught TypeError, hubspot_page).
Proof.
  split.
  - apply (foreign_messages_change_nothing submit_event hubspot_page).
    reflexivity.
  - apply (foreign_messages_change_nothing null_event hubspot_page).
    reflexivity.
Defined.

(** X9.  When the listener does not return, the page is as it was, and
    there are two causes only: TypeError on data that is null or
    undefined, and InvalidCharacterError on a form-ready message when the
    input found has an attribute name that setAttribute refuses.  The
    fixed field name of line 49 is plain, so the lookup never throws and
    never leaves the selector language the model reads. *)
Theorem listener_failures event w r w' :
  on_message event w = (r, w') ->
  r <> Returned ->
  w' = w /\
  ((r = Uncaught TypeError /\ is_nullish (data event) = true) \/
   (r = Uncaught (DOMError InvalidCharacterError) /\
    is_form_ready (data event) = true /\
    exists p src,
      first_match (input_named "fieldName") (document w) p src /\
      valid_names (attributes src) = false)).
Proof.
  destruct (is_form_ready (data event)) eqn:Hr.
  - rewrite (on_message_ready _ _ Hr), replaceInputWithSelect_outcome.
    unfold outcome. rewrite (parse_selector_plain _ fieldName_plain).
    destruct (first_in_document _ _) as [p|] eqn:Hp; [|by intros [= <- <-]].
    apply first_in_document_Some in Hp as [src Hsrc].
    pose proof Hsrc as (Hat & _). rewrite Hat. simpl.
    destruct (valid_names _) eqn:Hv; [by intros [= <- <-]|].
    intros [= <- <-] _. split; [done|]. right. split; [done|].
    split; [done|]. by exists p, src.
  - rewrite (on_message_foreign _ _ Hr).
    destruct (is_nullish _) eqn:Hn; intros [= <- <-]; [auto|done].
Qed.

Lemma listener_failures_witness :
  hubspot_page = hubspot_page /\
  ((Uncaught TypeError = Uncaught TypeError /\
    is_nullish (data null_event) = true) \/
   (Uncaught TypeError = Uncaught (DOMError InvalidCharacterError) /\
    is_form_ready (data null_event) = true /\
    exists p src,
      first_match (input_named "fieldName") (document hubspot_page) p src /\
      valid_names (attributes src) = false)).
Proof.
  apply (listener_failures null_event hubspot_page (Uncaught TypeError)
           hubspot_page).
  - reflexivity.
  - discriminate.
Defined.

(** X10.  On the form-ready message, from whatever origin, when the first
    input element named fieldName has attribute names that are valid, in
    lower case and pairwise distinct, the listener returns, and in the
    document after it the node at the input's position is a select with
    the input's attributes and the four options of lines 41 to 46 in
    their order, the first with the empty value.  The input's parent has
    its former child list with that one entry exchanged, and the console
    is untouched. *)
Theorem form_ready_replaces_field event w parent i src :
  is_form_ready (data event) = true ->
  first_match (input_named "fieldName") (document w) (parent ++ [i]) src ->
  verbatim_names (attributes src) ->
  exists select sibs w',
    select
    = Elem "select" (attributes src)
        [Elem "option" [Attr "value" EmptyString] [Text "Select an option"];
         Elem "option" [Attr "value" "option1"] [Text "Option 1"];
         Elem "option" [Attr "value" "option2"] [Text "Option 2"];
         Elem "option" [Attr "value" "option3"] [Text "Option 3"]] /\
    on_message event w = (Returned, w') /\
    console w' = console w /\
    node_at (document w') (parent ++ [i]) = Some select /\
    children_at (document w) parent = Some sibs /\
    sibs !! i = Some src /\
    children_at (document w') parent = Some (<[i := select]> sibs) /\
    document w' = replace_at (document w) (parent ++ [i]) select.
Proof.
  intros Hr Hsrc Hverb. rewrite (on_message_ready _ _ Hr).
  rewrite (found_outcome _ _ _ _ _ fieldName_plain Hsrc).
  pose proof Hverb as (-> & _). rewrite (copied_verbatim _ Hverb).
  destruct Hsrc as (Hat & _).
  destruct (children_at_replace_at _ _ _ _
              (Elem "select" (attributes src) (choice <$> myOptions)) Hat)
    as (sibs & Hsibs & Hi & Hsibs').
  eexists _, sibs, _. split; [reflexivity|]. split; [reflexivity|].
  split; [done|].
  split; [exact (node_at_replace_at _ _ _ _ Hat)|].
  split; [done|]. split; [done|]. split; [exact Hsibs'|done].
Qed.

Lemma fieldName_input_first :
  first_match (input_named "fieldName") (document hubspot_page) [0; 0; 0; 0]
    fieldName_input.
Proof. by apply first_match_by_search. Qed.

Lemma fieldName_input_verbatim : verbatim_names (attributes fieldName_input).
Proof.
  split; [done|]. split.
  - by repeat constructor.
  - apply (bool_decide_unpack _). by vm_compute.
Qed.

Lemma form_ready_replaces_field_witness :
  exists select sibs w',
    select
    = Elem "select" (attributes fieldName_input)
        [Elem "option" [Attr "value" EmptyString] [Text "Select an option"];
         Elem "option" [Attr "value" "option1"] [Text "Option 1"];
         Elem "option" [Attr "value" "option2"] [Text "Option 2"];
         Elem "option" [Attr "value" "option3"] [Text "Option 3"]] /\
    on_message ready_event hubspot_page = (Returned, w') /\
    console w' = console hubspot_page /\
    node_at (document w') ([0; 0; 0] ++ [0]) = Some select /\
    children_at (document hubspot_page) [0; 0; 0] = Some sibs /\
    sibs !! 0 = Some fieldName_input /\
    children_at (document w') [0; 0; 0] = Some (<[0 := select]> sibs) /\
    document w' = replace_at (document hubspot_page) ([0; 0; 0] ++ [0]) select.
Proof.
  apply (form_ready_replaces_field ready_event hubspot_page [0; 0; 0] 0
           fieldName_input).
  - reflexivity.
  - exact fieldName_input_first.
  - exact fieldName_input_verbatim.
Defined.









(** * The year options *)

Lemma for_years_spec year endYear years :
  for_years year endYear years
  = years ++ (year_option <$> seqZ year (endYear + 1 - year)).
Proof.
  funelim (for_years year endYear years).
  - match goal with IH : for_years _ _ _ = _ ++ _ |- _ => rewrite IH end.
    rewrite <- app_assoc. f_equal. rewrite (seqZ_cons year) by lia. simpl.
    do 2 f_equal. f_equal; lia.
  - rewrite seqZ_nil by lia. by rewrite app_nil_r.
Qed.

Lemma pretty_N_go_nonempty x s :
  s <> EmptyString -> pretty_N_go x s <> EmptyString.
Proof.
  revert s. induction (N.lt_wf_0 x) as [x _ IH]; intros s Hs.
  assert (x = 0 \/ 0 < x)%N as [->|Hx] by lia.
  - by rewrite pretty_N_go_0.
  - rewrite pretty_N_go_step by done. apply IH; [|done].
    by apply N.div_lt.
Qed.

Lemma year_toString_nonempty year : year_toString year <> EmptyString.
Proof.
  unfold year_toString, pretty, pretty_Z. destruct year as [|y|y]; [done| |done].
  unfold pretty, pretty_positive, pretty, pretty_N.
  case_decide; [done|]. rewrite pretty_N_go_step by lia.
  by apply pretty_N_go_nonempty.
Qed.

Lemma year_options_listed_eq currentYear :
  generateYearOptions currentYear
  = year_placeholder :: (year_option <$> seqZ (currentYear - 10) 16).
Proof.
  unfold generateYearOptions. rewrite for_years_spec.
  by replace (currentYear + 5 + 1 - (currentYear - 10))%Z with 16%Z by lia.
Qed.

(** X12.  Whatever the current year, the list holds seventeen options:
    first the placeholder with the empty value, then one option for each
    of the sixteen years from ten before the current year to five after
    it, both bounds included, in ascending order, each with the decimal
    year as label and as value. *)
Theorem year_options_listed currentYear :
  generateYearOptions currentYear
  = year_placeholder :: (year_option <$> seqZ (currentYear - 10) 16) /\
  length (generateYearOptions currentYear) = 17 /\
  generateYearOptions currentYear !! 1
  = Some (year_option (currentYear - 10)) /\
  last (generateYearOptions currentYear)
  = Some (year_option (currentYear + 5)).
Proof.
  rewrite (year_options_listed_eq currentYear). split; [done|]. split.
  { change (S (length (year_option <$> seqZ (currentYear - 10) 16)) = 17).
    by rewrite length_fmap, length_seqZ. }
  split.
  { change ((year_option <$> seqZ (currentYear - 10) 16) !! 0
            = Some (year_option (currentYear - 10))).
    rewrite list_lookup_fmap, (lookup_seqZ_lt _ _ 0) by lia.
    simpl. do 2 f_equal. lia. }
  change 16%Z with (Z.of_nat (S 15)). rewrite seqZ_S, fmap_app.
  change (year_option <$> [(currentYear - 10 + Z.of_nat 15)%Z])
    with [year_option (currentYear - 10 + Z.of_nat 15)].
  rewrite app_comm_cons, last_snoc. do 2 f_equal. lia.
Qed.

(** X13.  No two of the year options carry the same value, so no two
    choices of the select submit the same data: the years differ, their
    decimal notations differ, and none is the empty value of the
    placeholder. *)
Theorem year_values_distinct currentYear :
  NoDup (value <$> generateYearOptions currentYear).
Proof.
  rewrite (year_options_listed_eq currentYear), fmap_cons.
  rewrite <- list_fmap_compose. constructor.
  - intros (y & Hy & _)%list_elem_of_fmap.
    injection Hy as Hy. symmetry in Hy. by apply year_toString_nonempty in Hy.
  - apply NoDup_fmap_2; [|apply NoDup_seqZ].
    intros x y [= H]. by apply (inj pretty) in H.
Qed.

(** X14.  The year options given to the function, as at line 194 of the
    usage notes.  The select that a successful call returns has seventeen
    option elements: the first shows Select a year and has the empty
    value, and the one at index [i + 1], for [i] below sixteen, shows the
    year [currentYear - 10 + i] and has that year as its value. *)
Theorem year_options_in_select f currentYear w select w' :
  replaceInputWithSelect f (generateYearOptions currentYear) w
  = (Normal (Some select), w') ->
  length (childNodes select) = 17 /\
  (exists c,
     childNodes select !! 0 = Some c /\
     localName c = Some "option" /\
     textContent c = "Select a year" /\
     getAttribute c "value" = Some EmptyString) /\
  forall i, i < 16 ->
    exists c,
      childNodes select !! S i = Some c /\
      localName c = Some "option" /\
      textContent c = year_toString (currentYear - 10 + Z.of_nat i) /\
      getAttribute c "value"
      = Some (year_toString (currentYear - 10 + Z.of_nat i)).
Proof.
  intros (s & p & src & _ & _ & _ & -> & _)%success_inv.
  rewrite (year_options_listed_eq currentYear).
  change (childNodes (Elem "select" (copied (attributes src))
            (choice <$> year_placeholder
                          :: (year_option <$> seqZ (currentYear - 10) 16))))
    with (choice year_placeholder
            :: (choice <$> (year_option <$> seqZ (currentYear - 10) 16))).
  split.
  { change (S (length (choice <$> (year_option
                                     <$> seqZ (currentYear - 10) 16))) = 17).
    by rewrite !length_fmap, length_seqZ. }
  split; [by eexists|].
  intros i Hi.
  change ((choice year_placeholder
             :: (choice <$> (year_option <$> seqZ (currentYear - 10) 16)))
          !! S i)
    with ((choice <$> (year_option <$> seqZ (currentYear - 10) 16)) !! i).
  rewrite !list_lookup_fmap, lookup_seqZ_lt by lia.
  eexists. split; [done|]. split; [done|].
  split; [apply choice_text|done].
Qed.

Lemma year_options_in_select_witness :
  exists select w',
    replaceInputWithSelect "size" (generateYearOptions 2026) form_page
    = (Normal (Some select), w') /\
    length (childNodes select) = 17 /\
    (exists c,
       childNodes select !! 0 = Some c /\
       localName c = Some "option" /\
       textContent c = "Select a year" /\
       getAttribute c "value" = Some EmptyString) /\
    forall i, i < 16 ->
      exists c,
        childNodes select !! S i = Some c /\
        localName c = Some "option" /\
        textContent c = year_toString (2026 - 10 + Z.of_nat i) /\
        getAttribute c "value"
        = Some (year_toString (2026 - 10 + Z.of_nat i)).
Proof.
  eexists _, _. split; [vm_compute; reflexivity|].
  eapply (year_options_in_select "size" 2026 form_page).
  vm_compute. reflexivity.
Defined.

(** * The attribute list of the select *)

Lemma ascii_lower_idem c : ascii_lower (ascii_lower c) = ascii_lower c.
Proof. destruct c as [[] [] [] [] [] [] [] []]; reflexivity. Qed.

Lemma ascii_lowercase_idem s :
  ascii_lowercase (ascii_lowercase s) = ascii_lowercase s.
Proof.
  induction s as [|c s IH]; [done|]. simpl.
  by rewrite ascii_lower_idem, IH.
Qed.

Lemma attr_set_names name val l :
  attr_name <$> attr_set name val l
  = if bool_decide (name ∈ attr_name <$> l) then attr_name <$> l
    else (attr_name <$> l) ++ [name].
Proof.
  induction l as [|a l IH].
  - rewrite bool_decide_eq_false_2; [done|]. apply not_elem_of_nil.
  - cbn [attr_set]. destruct (decide (attr_name a = name)) as [Ha|Ha].
    + rewrite (bool_decide_eq_true_2 (attr_name a = name)) by done.
      rewrite bool_decide_eq_true_2.
      * rewrite !fmap_cons. simpl. by rewrite Ha.
      * rewrite fmap_cons, Ha. apply list_elem_of_here.
    + rewrite (bool_decide_eq_false_2 (attr_name a = name)) by done.
      rewrite !fmap_cons, IH. case_bool_decide as Hin.
      * rewrite bool_decide_eq_true_2; [done|]. by apply list_elem_of_further.
      * rewrite bool_decide_eq_false_2; [done|].
        intros [?|?]%elem_of_cons; [by apply Ha|done].
Qed.

(** What the copy loop keeps true of the names it has set so far. *)
Lemma fold_attr_set_names (l acc : list attr) :
  let out :=
    fold_left
      (fun acc a =>
         attr_set (ascii_lowercase (attr_name a)) (attr_value a) acc)
      l acc in
  (NoDup (attr_name <$> acc) -> NoDup (attr_name <$> out)) /\
  (Forall (fun a => ascii_lowercase (attr_name a) = attr_name a) acc ->
   Forall (fun a => ascii_lowercase (attr_name a) = attr_name a) out) /\
  (forall n, n ∈ attr_name <$> out <->
             n ∈ attr_name <$> acc \/
             n ∈ ascii_lowercase <$> (attr_name <$> l)).
Proof.
  revert acc. induction l as [|a l IH]; intros acc; simpl.
  - split; [done|]. split; [done|]. intros n. split; [auto|].
    intros [?|H]; [done|]. by apply elem_of_nil in H.
  - destruct (IH (attr_set (ascii_lowercase (attr_name a)) (attr_value a) acc))
      as (Hnd & Hlow & Hin).
    assert (forall n,
              n ∈ attr_name
                    <$> attr_set (ascii_lowercase (attr_name a))
                          (attr_value a) acc
              <-> n ∈ attr_name <$> acc \/ n = ascii_lowercase (attr_name a))
      as Hset.
    { intros n. rewrite attr_set_names. case_bool_decide as Hmem.
      - split; [auto|]. by intros [?| ->].
      - rewrite elem_of_app, list_elem_of_singleton. done. }
    split; [|split].
    + intros Hacc. apply Hnd. rewrite attr_set_names.
      case_bool_decide as Hmem; [done|].
      apply NoDup_app. split; [done|]. split; [|apply NoDup_singleton].
      intros n Hn ->%list_elem_of_singleton. done.
    + intros Hacc. apply Hlow. clear -Hacc.
      induction Hacc as [|b acc Hb Hacc IHacc]; simpl.
      * constructor; [|done]. simpl. apply ascii_lowercase_idem.
      * case_bool_decide as Hn.
        -- constructor; [|done]. simpl. apply ascii_lowercase_idem.
        -- by constructor.
    + intros n. rewrite Hin, Hset, elem_of_cons. tauto.
Qed.

Lemma attr_set_fresh_lowercased (l acc : list attr) :
  NoDup ((attr_name <$> acc) ++ (ascii_lowercase <$> (attr_name <$> l))) ->
  fold_left
    (fun acc a => attr_set (ascii_lowercase (attr_name a)) (attr_value a) acc)
    l acc
  = acc ++ (lowercased <$> l).
Proof.
  revert acc. induction l as [|a l IH]; intros acc Hnd; simpl.
  - by rewrite app_nil_r.
  - simpl in Hnd. apply NoDup_app in Hnd as (Hacc & Hdisj & Hl).
    rewrite attr_set_fresh.
    + rewrite IH; [by rewrite <- app_assoc|].
      rewrite fmap_app. simpl. rewrite <- app_assoc. simpl.
      apply NoDup_app. split; [done|]. split; [done|]. done.
    + intros Hin. apply (Hdisj _ Hin). apply list_elem_of_here.
Qed.

(** X15.  What the copy loop of lines 19 to 21 makes of any attribute
    list that it accepts.  In the select that a call returns the
    attribute names are in lower case and pairwise distinct, and they are
    the names of the element found, put in lower case: no name is lost
    and none is invented.  When the names of the element found stay
    distinct in lower case, the select's attribute list is the element's
    list in its order with only the names lowercased. *)
Theorem select_attributes_lowercased f opts w select w' :
  replaceInputWithSelect f opts w = (Normal (Some select), w') ->
  exists p src,
    querySelector (selector_text f) w = (Normal (Some p), w) /\
    node_at (document w) p = Some src /\
    NoDup (attr_name <$> attributes select) /\
    Forall (fun a => ascii_lowercase (attr_name a) = attr_name a)
      (attributes select) /\
    (forall n, n ∈ attr_name <$> attributes select <->
               n ∈ ascii_lowercase <$> (attr_name <$> attributes src)) /\
    (NoDup (ascii_lowercase <$> (attr_name <$> attributes src)) ->
     attributes select = lowercased <$> attributes src).
Proof.
  intros (s & p & src & Hs & Hsrc & _ & -> & _)%success_inv.
  exists p, src. pose proof Hsrc as (Hat & _).
  split.
  { unfold querySelector. rewrite Hs.
    by rewrite (first_match_found _ _ _ _ Hsrc). }
  split; [done|]. simpl. unfold copied.
  destruct (fold_attr_set_names (attributes src) []) as (Hnd & Hlow & Hin).
  split; [apply Hnd; constructor|]. split; [by apply Hlow|].
  split.
  - intros n. rewrite Hin. split; [|auto].
    intros [H|?]; [|done]. by apply elem_of_nil in H.
  - intros Hdist. by rewrite attr_set_fresh_lowercased.
Qed.

Lemma select_attributes_lowercased_witness :
  exists select w' p src,
    replaceInputWithSelect "size" small_large mixed_case_page
    = (Normal (Some select), w') /\
    attributes select
    = [Attr "name" "size"; Attr "datakey" "k"; Attr "title" "u"] /\
    querySelector (selector_text "size") mixed_case_page
    = (Normal (Some p), mixed_case_page) /\
    node_at (document mixed_case_page) p = Some src /\
    NoDup (attr_name <$> attributes select) /\
    Forall (fun a => ascii_lowercase (attr_name a) = attr_name a)
      (attributes select) /\
    (forall n, n ∈ attr_name <$> attributes select <->
               n ∈ ascii_lowercase <$> (attr_name <$> attributes src)) /\
    (NoDup (ascii_lowercase <$> (attr_name <$> attributes src)) ->
     attributes select = lowercased <$> attributes src).
Proof.
  eexists _, _.
  destruct (select_attributes_lowercased "size" small_large mixed_case_page
              _ _ eq_refl) as (p & src & H).
  exists p, src. split; [reflexivity|]. split; [reflexivity|]. exact H.
Defined.
